(** * MIDI ports and connectors: a shallow embedding of [midi/ports.go]

  The development follows the Go sources: Go channels are bounded FIFO
  queues with a closed flag, [int] values are [Z], the C transport
  (portmidi) is an oracle whose answers are arguments of the functions
  that call it, and a goroutine is a thread of a step relation. *)

From Stdlib Require Import ZArith List Lia Bool String.
From stdpp Require Import base option list gmap strings.
Import ListNotations.

Local Open Scope Z_scope.

(** ** Outcomes of Go code that may block or panic *)

Inductive result (A : Type) : Type :=
| Ret (a : A)
| Block
| Panic.
Arguments Ret {A} a.
Arguments Block {A}.
Arguments Panic {A}.

(** A computation over a state [S]: the state is returned in every case,
  as it stands at the point where the code returned, blocked or
  panicked. *)
Definition M (S A : Type) : Type := S -> result A * S.

Definition ret {S A} (a : A) : M S A := fun s => (Ret a, s).

Definition bind {S A B} (m : M S A) (k : A -> M S B) : M S B :=
fun s => match m s with
         | (Ret a, s') => k a s'
         | (Block, s') => (Block, s')
         | (Panic, s') => (Panic, s')
         end.

Notation "x <- m ;; k" := (bind m (fun x => k))
(at level 100, m at next level, right associativity).
Notation "m ;;; k" := (bind m (fun _ => k))
(at level 100, right associativity).

Definition get {S} : M S S := fun s => (Ret s, s).
Definition put {S} (s : S) : M S unit := fun _ => (Ret tt, s).
Definition modify {S} (f : S -> S) : M S unit := fun s => (Ret tt, f s).

(** ** Go channels *)

Module GoChan.

(** [make(chan A, cap)]: a queue of at most [cap] values.  A nil
    channel is [None] at the place that holds the channel. *)
Record chan (A : Type) : Type := Chan {
  cap : nat;
  buf : list A;
  closed : bool
}.
Arguments Chan {A} cap buf closed.
Arguments cap {A} c.
Arguments buf {A} c.
Arguments closed {A} c.

Definition make {A} (n : nat) : chan A := Chan n [] false.

Definition has_room {A} (c : chan A) : bool :=
  Nat.ltb (length (buf c)) (cap c).

Definition push {A} (c : chan A) (v : A) : chan A :=
  Chan (cap c) (buf c ++ [v]) (closed c).

(** [c <- v]: panics on a closed channel, blocks on a nil or full one. *)
Definition send {A} (c : option (chan A)) (v : A) : result (chan A) :=
  match c with
  | None => Block
  | Some c =>
      if closed c then Panic
      else if has_room c then Ret (push c v)
      else Block
  end.

(** [v, ok := <-c]: a buffered value first; on an empty closed channel
    the zero value with [ok = false] (here [None]); blocks otherwise. *)
Definition recv {A} (c : option (chan A)) : result (option A * chan A) :=
  match c with
  | None => Block
  | Some c =>
      match buf c with
      | v :: rest => Ret (Some v, Chan (cap c) rest (closed c))
      | [] => if closed c then Ret (None, c) else Block
      end
  end.

(** [close(c)]: panics on a nil channel and on a closed one. *)
Definition close {A} (c : option (chan A)) : result (chan A) :=
  match c with
  | None => Panic
  | Some c => if closed c then Panic else Ret (Chan (cap c) (buf c) true)
  end.

(** A receive in a [select] is ready when [recv] would not block. *)
Definition ready {A} (c : option (chan A)) : bool :=
  match recv c with
  | Block => false
  | _ => true
  end.

End GoChan.
Import GoChan.

(** ** Events *)

(** [errors.New(msg)]; the nil error is [None]. *)
Definition error : Type := option string.

Record Message : Type := mkMessage {
Channel : Z;
Command : Z;
Data1 : Z;
Data2 : Z
}.

(** The values sent on a port's channel.  In the sources [Event] is an
  interface and [Message] one of its implementations; the composite
  literals of [Run] are positional, so the fields are named after the
  data model. *)
Inductive Event : Type :=
| NoteOn (channel key velocity : Z)
| NoteOff (channel key velocity : Z)
| ControlChange (channel controller value : Z) (name : string)
| RawMessage (m : Message).

Definition zeroMessage : Message := mkMessage 0 0 0 0.

(** ** Constants and tables of the package that the port code refers to *)

(** [NOTE_ON], [NOTE_OFF], [CONTROL_CHANGE], [ControlChangeNames] and
  [BufferSize] are declared in other files of the package, and
  [Pm_GetErrorText] in the C transport; the port code is embedded
  over any choice of them. *)
Class MidiEnv : Type := {
NOTE_ON : Z;
NOTE_OFF : Z;
CONTROL_CHANGE : Z;
ControlChangeNames : gmap Z string;
BufferSize : nat;
Pm_GetErrorText : Z -> string
}.

(** The status values of the MIDI 1.0 protocol, with an empty table of
  controller names: the environment at which concrete frames are
  evaluated. *)
Definition midi10 : MidiEnv := {|
NOTE_ON := 0x90;
NOTE_OFF := 0x80;
CONTROL_CHANGE := 0xB0;
ControlChangeNames := ∅;
BufferSize := 2;
Pm_GetErrorText := fun n => if Z.eqb n 0 then EmptyString else "PortMidi: error"%string
|}.

(** ** Ports *)

Section Ports.
Context {env : MidiEnv}.

(** [makePortMidiError] *)
Definition makePortMidiError (errNum : Z) : error :=
  let msg := Pm_GetErrorText errNum in
  if String.eqb msg EmptyString then None else Some msg.

(** *** FakePort *)

Record FakePort : Type := mkFakePort {
  f_isOpen : bool;
  f_events : option (chan Event);
  IsInputPort : bool
}.

Definition FakePort_Open : M FakePort error :=
  fun t => (Ret None, mkFakePort true (Some (make BufferSize)) (IsInputPort t)).

Definition FakePort_Close : M FakePort error :=
  fun t =>
    match close (f_events t) with
    | Ret c => (Ret None, mkFakePort false (Some c) (IsInputPort t))
    | Block => (Block, t)
    | Panic => (Panic, t)
    end.

Definition FakePort_IsOpen (t : FakePort) : bool := f_isOpen t.

(** [FakePort.Run] does nothing. *)
Definition FakePort_Run : M FakePort unit := ret tt.

(** *** SystemPort *)

(** [stream] is the transport handle, [None] when nil. *)
Record SystemPort : Type := mkSystemPort {
  isOpen : bool;
  id : Z;
  stream : option Z;
  events : option (chan Event);
  stop : option (chan bool)
}.

Definition set_isOpen (b : bool) (s : SystemPort) : SystemPort :=
  mkSystemPort b (id s) (stream s) (events s) (stop s).
Definition set_stream (h : option Z) (s : SystemPort) : SystemPort :=
  mkSystemPort (isOpen s) (id s) h (events s) (stop s).
Definition set_events (c : chan Event) (s : SystemPort) : SystemPort :=
  mkSystemPort (isOpen s) (id s) (stream s) (Some c) (stop s).
Definition set_stop (c : chan bool) (s : SystemPort) : SystemPort :=
  mkSystemPort (isOpen s) (id s) (stream s) (events s) (Some c).

(** What a port operation did to the stop signal, the transport and
    the event channel, in the order in which it happened. *)
Inductive Effect : Type :=
| StopSent
| StopTaken
| PmOpened
| PmClosed
| EventSent (e : Event)
| EventsClosed.

Record PortW : Type := mkPortW {
  port : SystemPort;
  effects : list Effect
}.

Definition on_port (f : SystemPort -> SystemPort) : M PortW unit :=
  modify (fun w => mkPortW (f (port w)) (effects w)).
Definition log (e : Effect) : M PortW unit :=
  modify (fun w => mkPortW (port w) (effects w ++ [e])).

(** [s.stop <- true] *)
Definition send_stop (b : bool) : M PortW unit :=
  fun w =>
    match send (stop (port w)) b with
    | Ret c => (Ret tt, mkPortW (set_stop c (port w)) (effects w ++ [StopSent]))
    | Block => (Block, w)
    | Panic => (Panic, w)
    end.

(** [close(s.events)] *)
Definition close_events : M PortW unit :=
  fun w =>
    match close (events (port w)) with
    | Ret c => (Ret tt, mkPortW (set_events c (port w)) (effects w ++ [EventsClosed]))
    | Block => (Block, w)
    | Panic => (Panic, w)
    end.

(** [s.events <- e] *)
Definition send_event (e : Event) : M PortW unit :=
  fun w =>
    match send (events (port w)) e with
    | Ret c => (Ret tt, mkPortW (set_events c (port w)) (effects w ++ [EventSent e]))
    | Block => (Block, w)
    | Panic => (Panic, w)
    end.

(** [SystemOutPort.Open]; [errNum] and [h] are what [Pm_OpenInput]
    returns and stores in [s.stream]. *)
Definition SystemOutPort_Open (errNum : Z) (h : option Z) : M PortW error :=
  w <- get ;;
  if isOpen (port w) && negb (bool_decide (is_Some (stream (port w)))) then
    ret (Some ("Underlying portmidi port is already opened, " ++
               "but stream is not connected to this SystemPort.")%string)
  else if Z.eqb (id (port w)) (-1) || isOpen (port w) then
    ret None
  else
    on_port (set_stream h) ;;;
    log PmOpened ;;;
    (if Z.eqb errNum 0 then on_port (set_isOpen true) else ret tt) ;;;
    ret (makePortMidiError errNum).

(** [SystemInPort.Open] differs in the transport call only
    ([Pm_OpenOutput]). *)
Definition SystemInPort_Open (errNum : Z) (h : option Z) : M PortW error :=
  SystemOutPort_Open errNum h.

(** [SystemPort.Close]; [errNum] is what [Pm_Close] returns. *)
Definition SystemPort_Close (errNum : Z) : M PortW error :=
  w <- get ;;
  if isOpen (port w) then
    on_port (set_isOpen false) ;;;
    send_stop true ;;;
    log PmClosed ;;;
    close_events ;;;
    ret (makePortMidiError errNum)
  else
    ret None.

Definition SystemPort_IsOpen (s : SystemPort) : bool := isOpen s.

(** *** The processing loop of an output port *)

(** What the transport answers during one iteration of [Run]:
    [Pm_Poll] (value and error) and [Pm_Read] (number of events read and
    the [message] field of the buffer it filled). *)
Record PmAnswers : Type := mkPmAnswers {
  pm_poll : Z * error;
  pm_read : Z * Z
}.

(** [SystemOutPort.poll] *)
Definition poll (s : SystemPort) (a : PmAnswers) : bool * error :=
  match stream s with
  | None => (false, Some "No input stream set."%string)
  | Some _ =>
      if negb (SystemPort_IsOpen s) then (false, Some "Port is not open."%string)
      else
        let '(dataAvailable, err) := pm_poll a in
        match err with
        | Some e => (false, Some e)
        | None => if Z.ltb 0 dataAvailable then (true, None) else (false, None)
        end
  end.

(** [SystemOutPort.readEvent]; the buffer is read only when
    [eventsRead > 0]. *)
Definition readEvent (a : PmAnswers) : Message * error :=
  let '(eventsRead, message) := pm_read a in
  let m := zeroMessage in
  let m :=
    if Z.ltb 0 eventsRead then
      let status := Z.land message 0xFF in
      mkMessage (Z.land status 0x0F)
                (Z.land status 0xF0)
                (Z.land (Z.shiftr message 8) 0xFF)
                (Z.land (Z.shiftr message 16) 0xFF)
    else m in
  (m, None).

(** The [switch m.Command] of [SystemOutPort.Run]: the event that is
    sent on [s.events].  Go takes the first case that matches. *)
Definition classify (m : Message) : Event :=
  if Z.eqb (Command m) NOTE_ON then
    NoteOn (Channel m) (Data1 m) (Data2 m)
  else if Z.eqb (Command m) NOTE_OFF then
    NoteOff (Channel m) (Data1 m) 0
  else if Z.eqb (Command m) CONTROL_CHANGE then
    let name := match ControlChangeNames !! Data1 m with
                | Some name => name
                | None => "Unknown"%string
                end in
    ControlChange (Channel m) (Data1 m) (Data2 m) name
  else
    RawMessage m.

(** How one iteration of the [for] loop of [SystemOutPort.Run] ends. *)
Inductive Iteration : Type :=
| IterReturn
| IterSleep
| IterRetry
| IterPublished.

(** [case <-s.stop] of the [select] with a [default]: taken when the
    receive is ready, and then the value is consumed. *)
Definition take_stop : M PortW bool :=
  fun w =>
    match recv (stop (port w)) with
    | Ret (_, c) => (Ret true, mkPortW (set_stop c (port w)) (effects w ++ [StopTaken]))
    | Block => (Ret false, w)
    | Panic => (Panic, w)
    end.

(** One iteration of [SystemOutPort.Run].  [panic(err)] is [Panic]. *)
Definition SystemOutPort_Run_iter (a : PmAnswers) : M PortW Iteration :=
  stopped <- take_stop ;;
  if (stopped : bool) then ret IterReturn
  else
    w <- get ;;
    let '(dataAvailable, err) := poll (port w) a in
    match err with
    | Some _ => fun w => (Panic, w)
    | None =>
        if negb dataAvailable then ret IterSleep
        else
          let '(m, err) := readEvent a in
          match err with
          | Some _ => ret IterRetry
          | None => send_event (classify m) ;;; ret IterPublished
          end
    end.

(** [SystemOutPort.Run] over the transport's answers to the successive
    iterations: [Some tt] when the loop returned, [None] when the
    answers ran out with the loop still running. *)
Fixpoint SystemOutPort_Run (answers : list PmAnswers) : M PortW (option unit) :=
  match answers with
  | [] => ret None
  | a :: rest =>
      it <- SystemOutPort_Run_iter a ;;
      match it with
      | IterReturn => ret (Some tt)
      | _ => SystemOutPort_Run rest
      end
  end.

(** An iteration of [SystemOutPort.Run] up to its send: the event it
    is about to publish, or how the iteration ended without one. *)
Definition SystemOutPort_Run_begin (a : PmAnswers) : M PortW (Iteration + Event) :=
  stopped <- take_stop ;;
  if (stopped : bool) then ret (inl IterReturn)
  else
    w <- get ;;
    let '(dataAvailable, err) := poll (port w) a in
    match err with
    | Some _ => fun w => (Panic, w)
    | None =>
        if negb dataAvailable then ret (inl IterSleep)
        else
          let '(m, err) := readEvent a in
          match err with
          | Some _ => ret (inl IterRetry)
          | None => ret (inr (classify m))
          end
    end.

(** The send that ends an iteration, [s.events <- e]. *)
Definition SystemOutPort_Run_finish (e : Event) : M PortW Iteration :=
  send_event e ;;; ret IterPublished.

(** Modelled from the spec: [ToRawMessage], the raw encoding of an
    event, is declared with the event types in a file that is not among
    the sources.  The raw frame is "a 32-bit packed value whose low byte
    is status (high nibble = command, low nibble = channel), next byte =
    data1, next byte = data2, high byte unused". *)
Definition Message_ToRawMessage (m : Message) : Z :=
  Z.lor (Z.lor (Z.lor (Command m) (Channel m))
               (Z.shiftl (Data1 m) 8))
        (Z.shiftl (Data2 m) 16).

(** Modelled from the spec: each variant is "convertible to a raw
    wire-level encoding", with the command of its variant. *)
Definition ToRawMessage (e : Event) : Z :=
  match e with
  | NoteOn ch key vel => Message_ToRawMessage (mkMessage ch NOTE_ON key vel)
  | NoteOff ch key vel => Message_ToRawMessage (mkMessage ch NOTE_OFF key vel)
  | ControlChange ch num val _ =>
      Message_ToRawMessage (mkMessage ch CONTROL_CHANGE num val)
  | RawMessage m => Message_ToRawMessage m
  end.

(** The three bytes of a raw frame. *)
Definition frame_status (f : Z) : Z := Z.land f 0xFF.
Definition frame_data1 (f : Z) : Z := Z.land (Z.shiftr f 8) 0xFF.
Definition frame_data2 (f : Z) : Z := Z.land (Z.shiftr f 16) 0xFF.
Definition frame_command (f : Z) : Z := Z.land (frame_status f) 0xF0.
Definition frame_channel (f : Z) : Z := Z.land (frame_status f) 0x0F.

(** The event an output port publishes for the frame [f] it has read
    ([eventsRead = 1]). *)
Definition classify_frame (f : Z) : Event :=
  classify (fst (readEvent (mkPmAnswers (1, None) (1, f)))).

End Ports.

(** ** Devices *)

(** The [Device] interface is implemented outside this file.  A device
    is a state with its [Open] and [Close] methods; the connectors hold
    devices by reference, so the devices live in a store and a [Device]
    value is an index into it ([None] is the nil interface). *)
Class DeviceImpl : Type := {
  DevState : Type;
  dev_Open : M DevState error;
  dev_Close : M DevState error
}.

Definition Device : Type := option nat.

Inductive Call : Type :=
| CallOpen (h : nat)
| CallClose (h : nat).

Section Connectors.
Context {D : DeviceImpl}.

(** The devices and the method calls made on them so far. *)
Record World : Type := mkWorld {
  devs : list DevState;
  calls : list Call
}.

(** A method call through a [Device] value: a nil interface panics. *)
Definition call_method (m : M DevState error) (c : nat -> Call) (d : Device)
  : M World error :=
  fun w =>
    match d with
    | None => (Panic, w)
    | Some h =>
        match devs w !! h with
        | None => (Panic, w)
        | Some st =>
            let '(r, st') := m st in
            (r, mkWorld (<[h := st']> (devs w)) (calls w ++ [c h]))
        end
    end.

Definition Device_Open : Device -> M World error := call_method dev_Open CallOpen.
Definition Device_Close : Device -> M World error := call_method dev_Close CallClose.

(** *** Pipe *)

Record Pipe : Type := mkPipe {
  pFrom : Device;
  pTo : Device;
  pstop : option (chan bool)
}.

(** [Pipe{}] *)
Definition emptyPipe : Pipe := mkPipe None None None.

(** [NewPipe] *)
Definition NewPipe (from to : Device) : M World (Pipe * error) :=
  let pipe := mkPipe from to (Some (make 1)) in
  err <- Device_Open (pFrom pipe) ;;
  match err with
  | Some _ => ret (emptyPipe, err)
  | None =>
      err <- Device_Open (pTo pipe) ;;
      match err with
      | Some _ => ret (emptyPipe, err)
      | None => ret (pipe, err)
      end
  end.

(** *** Chain *)

Record Chain : Type := mkChain {
  Devices : list Device;
  pipes : list Pipe
}.

(** [Chain{}] *)
Definition emptyChain : Chain := mkChain [] [].

(** [make([]A, n)] with a length known at run time only: a negative
    length panics. *)
Definition make_slice {A} (zero : A) (n : Z) : result (list A) :=
  if Z.ltb n 0 then Panic else Ret (replicate (Z.to_nat n) zero).

(** [x[i]]: an index out of range panics. *)
Definition index {S A} (l : list A) (i : nat) : M S A :=
  fun s => match l !! i with
           | Some a => (Ret a, s)
           | None => (Panic, s)
           end.

(** The body of the [for i := 1; i < numDevices; i++] loop of
    [NewChain], over the values [i] takes. *)
Fixpoint NewChain_loop (indices : list nat) (c : Chain) : M World (Chain * error) :=
  match indices with
  | [] => ret (c, None)
  | i :: rest =>
      from <- index (Devices c) (i - 1) ;;
      to <- index (Devices c) i ;;
      r <- NewPipe from to ;;
      let '(pipe, err) := r in
      match err with
      | Some _ => ret (emptyChain, err)
      | None =>
          if Nat.ltb (i - 1) (length (pipes c)) then
            NewChain_loop rest (mkChain (Devices c) (<[(i - 1)%nat := pipe]> (pipes c)))
          else fun w => (Panic, w)
      end
  end.

(** [NewChain] *)
Definition NewChain (devices : list Device) : M World (Chain * error) :=
  let numDevices := length devices in
  match make_slice emptyPipe (Z.of_nat numDevices - 1) with
  | Ret ps => NewChain_loop (seq 1 (numDevices - 1)) (mkChain devices ps)
  | _ => fun w => (Panic, w)
  end.

End Connectors.

(** ** Goroutines as scheduled threads *)

(** A system of goroutines is a state with a partial step function: an
    action names the thread that moves (and, at a [select] with several
    ready cases, the case Go picks); [None] means the action is not
    enabled (the thread is blocked or elsewhere in its code). *)
Fixpoint run {S A : Type} (step : A -> S -> option S) (acts : list A) (s : S)
  : option S :=
  match acts with
  | [] => Some s
  | a :: rest =>
      match step a s with
      | Some s' => run step rest s'
      | None => None
      end
  end.

Definition reachable {S A : Type} (step : A -> S -> option S) (init s : S) : Prop :=
  exists acts, run step acts init = Some s.

(** Why a forwarding loop returned. *)
Inductive Exit : Type :=
| SourceClosed
| Stopped.

(** *** Pipe.Connect *)

(** Where the loop of [Pipe.Connect] stands: at its [select], at the
    send of the event it has received, returned, or dead of the panic
    of its send, with the event it held. *)
Inductive PipePc : Type :=
| PSelect
| PForward (e : Event)
| PReturned (why : Exit)
| PPanicked (e : Event).

(** [p_input] is [p.From.OutPort().Events()], [p_output] is
    [p.To.InPort().Events()].  [p_sent] and [p_taken] are the ledgers
    of the two neighbours of the pipe: the events the producer has put
    into the source channel, and the events the reader of the
    destination has got out of the destination channel, in order. *)
Record PipeSt : Type := mkPipeSt {
  p_input : chan Event;
  p_output : chan Event;
  p_stop : chan bool;
  p_pc : PipePc;
  p_sent : list Event;
  p_taken : list Event
}.

Inductive PipeAct : Type :=
| PRecv                (* loop: case e, ok := <-input.Events() *)
| PStop                (* loop: case <-p.stop *)
| PSend                (* loop: output.Events() <- e *)
| PProduce (e : Event) (* From's output port publishes e *)
| PConsume             (* To's input port takes an event *)
| PCloseInput          (* From is closed *)
| PCloseOutput         (* To is closed *)
| PSignal.             (* Pipe.Stop: p.stop <- true *)

Definition pipe_alive (s : PipeSt) : bool :=
  match p_pc s with
  | PPanicked _ => false
  | _ => true
  end.

Definition pipe_step (a : PipeAct) (s : PipeSt) : option PipeSt :=
  let '(mkPipeSt input output stop pc sent taken) := s in
  if negb (pipe_alive s) then None else
  match a, pc with
  | PRecv, PSelect =>
      match recv (Some input) with
      | Ret (Some e, c) => Some (mkPipeSt c output stop (PForward e) sent taken)
      | Ret (None, c) => Some (mkPipeSt c output stop (PReturned SourceClosed) sent taken)
      | _ => None
      end
  | PStop, PSelect =>
      match recv (Some stop) with
      | Ret (_, c) => Some (mkPipeSt input output c (PReturned Stopped) sent taken)
      | _ => None
      end
  | PSend, PForward e =>
      match send (Some output) e with
      | Ret c => Some (mkPipeSt input c stop PSelect sent taken)
      | Block => None
      | Panic => Some (mkPipeSt input output stop (PPanicked e) sent taken)
      end
  | PProduce e, _ =>
      match send (Some input) e with
      | Ret c => Some (mkPipeSt c output stop pc (sent ++ [e]) taken)
      | _ => None
      end
  | PConsume, _ =>
      match recv (Some output) with
      | Ret (Some e, c) => Some (mkPipeSt input c stop pc sent (taken ++ [e]))
      | _ => None
      end
  | PCloseInput, _ =>
      match close (Some input) with
      | Ret c => Some (mkPipeSt c output stop pc sent taken)
      | _ => None
      end
  | PCloseOutput, _ =>
      match close (Some output) with
      | Ret c => Some (mkPipeSt input c stop pc sent taken)
      | _ => None
      end
  | PSignal, _ =>
      match send (Some stop) true with
      | Ret c => Some (mkPipeSt input output c pc sent taken)
      | _ => None
      end
  | _, _ => None
  end.

(** The state in which [Connect] enters its loop: the devices are open
    with empty channels of [n] slots, the stop slot is that of
    [NewPipe]. *)
Definition pipe_init (n : nat) : PipeSt :=
  mkPipeSt (make n) (make n) (make 1) PSelect [] [].

(** The event the loop holds between its receive and its send, or held
    when its send panicked. *)
Definition in_flight (pc : PipePc) : list Event :=
  match pc with
  | PForward e => [e]
  | PPanicked e => [e]
  | _ => []
  end.

(** What has reached the destination: what its reader has taken and
    what waits in its channel. *)
Definition at_destination (s : PipeSt) : list Event :=
  p_taken s ++ buf (p_output s).

(** A bound on the steps the loop and the reader of the destination
    can still make on what the pipe holds. *)
Definition pipe_variant (s : PipeSt) : nat :=
  (4 * length (buf (p_input s))
   + match p_pc s with
     | PSelect => 1
     | PForward _ => 3
     | _ => 0
     end
   + length (buf (p_output s)))%nat.

(** *** Router.Connect *)

(** [r_source] is [r.From.OutPort().Events()], [r_dests] the channels
    [to.InPort().Events()] of [r.To], in order.  [r_main] is [None]
    while the loop of [Connect] is at its [select].  A goroutine spawned
    for an event is the pair of that event and the index in [r.To] of
    the destination it writes next; it has ended when the index is the
    length of [r.To].  A send on a closed channel panics, which ends
    the process.  Three ledgers are kept: [r_sent], the events the
    producer has put into the source channel; [r_received], the events
    the loop has got out of the source channel; [r_taken], the events
    the readers of the destinations have got out of the destination
    channels, as (index of the destination, event); each in order. *)
Record RouterSt : Type := mkRouterSt {
  r_source : chan Event;
  r_dests : list (chan Event);
  r_stop : chan bool;
  r_main : option Exit;
  r_tasks : list (Event * nat);
  r_sent : list Event;
  r_received : list Event;
  r_taken : list (nat * Event);
  r_crashed : bool
}.

Inductive RouterAct : Type :=
| RRecv                (* loop: case e, ok := <-r.From.OutPort().Events() *)
| RStop                (* loop: case <-r.stop *)
| RTask (k : nat)      (* goroutine k: to.InPort().Events() <- e *)
| RProduce (e : Event) (* From's output port publishes e *)
| RConsume (j : nat)   (* the input port of To[j] takes an event *)
| RCloseSource
| RCloseDest (j : nat)
| RSignal.             (* Router.Stop: r.stop <- true *)

Definition router_step (a : RouterAct) (s : RouterSt) : option RouterSt :=
  let '(mkRouterSt source dests stop main tasks sent received taken crashed) := s in
  if crashed then None else
  match a with
  | RRecv =>
      match main, recv (Some source) with
      | None, Ret (Some e, c) =>
          Some (mkRouterSt c dests stop None (tasks ++ [(e, 0%nat)])
                  sent (received ++ [e]) taken false)
      | None, Ret (None, c) =>
          Some (mkRouterSt c dests stop (Some SourceClosed) tasks
                  sent received taken false)
      | _, _ => None
      end
  | RStop =>
      match main, recv (Some stop) with
      | None, Ret (_, c) =>
          Some (mkRouterSt source dests c (Some Stopped) tasks
                  sent received taken false)
      | _, _ => None
      end
  | RTask k =>
      match tasks !! k with
      | Some (e, i) =>
          match dests !! i with
          | Some d =>
              match send (Some d) e with
              | Ret d' =>
                  Some (mkRouterSt source (<[i := d']> dests) stop main
                          (<[k := (e, S i)]> tasks) sent received taken false)
              | Block => None
              | Panic =>
                  Some (mkRouterSt source dests stop main tasks
                          sent received taken true)
              end
          | None => None
          end
      | None => None
      end
  | RProduce e =>
      match send (Some source) e with
      | Ret c =>
          Some (mkRouterSt c dests stop main tasks (sent ++ [e]) received taken false)
      | _ => None
      end
  | RConsume j =>
      match dests !! j with
      | Some d =>
          match recv (Some d) with
          | Ret (Some e, d') =>
              Some (mkRouterSt source (<[j := d']> dests) stop main tasks
                      sent received (taken ++ [(j, e)]) false)
          | _ => None
          end
      | None => None
      end
  | RCloseSource =>
      match close (Some source) with
      | Ret c => Some (mkRouterSt c dests stop main tasks sent received taken false)
      | _ => None
      end
  | RCloseDest j =>
      match dests !! j with
      | Some d =>
          match close (Some d) with
          | Ret d' =>
              Some (mkRouterSt source (<[j := d']> dests) stop main tasks
                      sent received taken false)
          | _ => None
          end
      | None => None
      end
  | RSignal =>
      match send (Some stop) true with
      | Ret c => Some (mkRouterSt source dests c main tasks sent received taken false)
      | _ => None
      end
  end.

(** [Connect] enters its loop with [N] open destinations. *)
Definition router_init (n N : nat) : RouterSt :=
  mkRouterSt (make n) (replicate N (make n)) (make 1) None [] [] [] [] false.

(** The events the reader of destination [j] has taken, in order. *)
Definition taken_by (j : nat) (l : list (nat * Event)) : list Event :=
  omap (fun x : nat * Event => if Nat.eqb (fst x) j then Some (snd x) else None) l.

(** What waits in the channel of destination [j]. *)
Definition waiting (j : nat) (dests : list (chan Event)) : list Event :=
  match dests !! j with
  | Some d => buf d
  | None => []
  end.

(** What has reached destination [j]: what its reader has taken and
    what waits in its channel. *)
Definition arrived (j : nat) (s : RouterSt) : list Event :=
  taken_by j (r_taken s) ++ waiting j (r_dests s).

(** The events whose goroutine has written destination [j] already. *)
Definition passed (j : nat) (tasks : list (Event * nat)) : list Event :=
  omap (fun x : Event * nat => if Nat.ltb j (snd x) then Some (fst x) else None) tasks.

(** The writes the spawned goroutines have still to make. *)
Definition pending (N : nat) (tasks : list (Event * nat)) : nat :=
  fold_right (fun x acc => (N - snd x + acc)%nat) 0%nat tasks.

(** The events that wait in the channels of the destinations. *)
Definition buffered (dests : list (chan Event)) : nat :=
  fold_right (fun d acc => (length (buf d) + acc)%nat) 0%nat dests.

(** A bound on the steps the goroutines and the readers of the
    destinations can still make. *)
Definition router_variant (s : RouterSt) : nat :=
  (2 * pending (length (r_dests s)) (r_tasks s) + buffered (r_dests s)
   + if r_crashed s then 0 else 1)%nat.

(** *** Funnel *)

(** A forwarding goroutine of [Funnel.Connect]: at its [select], at the
    send of the value it has received ([None] is the nil [Event] that a
    receive from a closed channel yields), at [f.stop <- true] after it
    has taken the stop token, or returned. *)
Inductive FunnelPc : Type :=
| FSelect
| FForward (e : option Event)
| FResend
| FExited.

(** [f_sources] are the channels [from.OutPort().Events()] of [f.From],
    [f_dest] is [f.To.InPort().Events()], [f_tasks] the goroutines, one
    per source.  The counters are histories: tokens sent by [Stop],
    tokens taken by a goroutine, tokens sent again by a goroutine. *)
Record FunnelSt : Type := mkFunnelSt {
  f_sources : list (chan Event);
  f_dest : chan (option Event);
  f_stop : chan bool;
  f_tasks : list FunnelPc;
  f_signalled : nat;
  f_taken : nat;
  f_resent : nat;
  f_crashed : bool
}.

Inductive FunnelAct : Type :=
| FRecv (i : nat)       (* goroutine i: case e := <-from.OutPort().Events() *)
| FSend (i : nat)       (* goroutine i: f.To.InPort().Events() <- e *)
| FTakeStop (i : nat)   (* goroutine i: case <-f.stop *)
| FResendStop (i : nat) (* goroutine i: f.stop <- true; return *)
| FSignal               (* Funnel.Stop: f.stop <- true *)
| FProduce (i : nat) (e : Event)
| FConsume
| FCloseSource (i : nat)
| FCloseDest.

Definition funnel_step (a : FunnelAct) (s : FunnelSt) : option FunnelSt :=
  let '(mkFunnelSt sources dest stop tasks signalled taken resent crashed) := s in
  if crashed then None else
  match a with
  | FRecv i =>
      match tasks !! i, sources !! i with
      | Some FSelect, Some src =>
          match recv (Some src) with
          | Ret (e, c) =>
              Some (mkFunnelSt (<[i := c]> sources) dest stop
                      (<[i := FForward e]> tasks) signalled taken resent false)
          | _ => None
          end
      | _, _ => None
      end
  | FSend i =>
      match tasks !! i with
      | Some (FForward e) =>
          match send (Some dest) e with
          | Ret c =>
              Some (mkFunnelSt sources c stop (<[i := FSelect]> tasks)
                      signalled taken resent false)
          | Block => None
          | Panic => Some (mkFunnelSt sources dest stop tasks signalled taken resent true)
          end
      | _ => None
      end
  | FTakeStop i =>
      match tasks !! i with
      | Some FSelect =>
          match recv (Some stop) with
          | Ret (_, c) =>
              Some (mkFunnelSt sources dest c (<[i := FResend]> tasks)
                      signalled (S taken) resent false)
          | _ => None
          end
      | _ => None
      end
  | FResendStop i =>
      match tasks !! i with
      | Some FResend =>
          match send (Some stop) true with
          | Ret c =>
              Some (mkFunnelSt sources dest c (<[i := FExited]> tasks)
                      signalled taken (S resent) false)
          | Block => None
          | Panic => Some (mkFunnelSt sources dest stop tasks signalled taken resent true)
          end
      | _ => None
      end
  | FSignal =>
      match send (Some stop) true with
      | Ret c => Some (mkFunnelSt sources dest c tasks (S signalled) taken resent false)
      | _ => None
      end
  | FProduce i e =>
      match sources !! i with
      | Some src =>
          match send (Some src) e with
          | Ret c =>
              Some (mkFunnelSt (<[i := c]> sources) dest stop tasks
                      signalled taken resent false)
          | _ => None
          end
      | None => None
      end
  | FConsume =>
      match recv (Some dest) with
      | Ret (Some _, c) =>
          Some (mkFunnelSt sources c stop tasks signalled taken resent false)
      | _ => None
      end
  | FCloseSource i =>
      match sources !! i with
      | Some src =>
          match close (Some src) with
          | Ret c =>
              Some (mkFunnelSt (<[i := c]> sources) dest stop tasks
                      signalled taken resent false)
          | _ => None
          end
      | None => None
      end
  | FCloseDest =>
      match close (Some dest) with
      | Ret c => Some (mkFunnelSt sources c stop tasks signalled taken resent false)
      | _ => None
      end
  end.

(** [Connect] has spawned one goroutine per device of [f.From]; the stop
    slot is that of [NewFunnel]. *)
Definition funnel_init (n N : nat) : FunnelSt :=
  mkFunnelSt (replicate N (make n)) (make n) (make 1) (replicate N FSelect)
    0 0 0 false.

Fixpoint count_pc (p : FunnelPc -> bool) (tasks : list FunnelPc) : nat :=
  match tasks with
  | [] => 0%nat
  | t :: rest => ((if p t then 1 else 0) + count_pc p rest)%nat
  end.

Definition is_resend (t : FunnelPc) : bool :=
  match t with FResend => true | _ => false end.
Definition is_exited (t : FunnelPc) : bool :=
  match t with FExited => true | _ => false end.
Definition is_select (t : FunnelPc) : bool :=
  match t with FSelect => true | _ => false end.

(** *** Funnel.Stop *)

Section FunnelStop.
Context {D : DeviceImpl}.

Record Funnel : Type := mkFunnel {
  fFrom : list Device;
  fTo : Device
}.

(** What [Funnel.Stop] acts on: the devices and the channel that
    [f.stop] refers to. *)
Record FunnelW : Type := mkFunnelW {
  fw_world : World;
  fw_stop : option (chan bool)
}.

Definition lift_world {A} (m : M World A) : M FunnelW A :=
  fun s => let '(r, w) := m (fw_world s) in (r, mkFunnelW w (fw_stop s)).

(** [f.stop <- true] *)
Definition signal_stop : M FunnelW unit :=
  fun s =>
    match send (fw_stop s) true with
    | Ret c => (Ret tt, mkFunnelW (fw_world s) (Some c))
    | Block => (Block, s)
    | Panic => (Panic, s)
    end.

(** [for _, from := range f.From { err = from.Close(); ... }] *)
Fixpoint close_all (ds : list Device) : M FunnelW error :=
  match ds with
  | [] => ret None
  | d :: rest =>
      err <- lift_world (Device_Close d) ;;
      match err with
      | Some _ => ret err
      | None => close_all rest
      end
  end.

(** [Funnel.Stop] *)
Definition Funnel_Stop (f : Funnel) : M FunnelW error :=
  signal_stop ;;;
  err <- lift_world (Device_Close (fTo f)) ;;
  match err with
  | Some _ => ret err
  | None => close_all (fFrom f)
  end.

End FunnelStop.

(** A device for tests: it opens when [can_open] holds and fails with an
    error otherwise. *)
Record TestDev : Type := mkTestDev {
  can_open : bool;
  opened : bool
}.

Definition testDevice : DeviceImpl := {|
  DevState := TestDev;
  dev_Open := fun d =>
    if can_open d then (Ret None, mkTestDev true true)
    else (Ret (Some "cannot open"%string), d);
  dev_Close := fun d => (Ret None, mkTestDev (can_open d) false)
|}.

(** ** The processing loop of an input port *)

Section InPort.
Context {env : MidiEnv}.

(** [event.ToRawMessage()] is a method of the [Event] interface; the
    loop of an input port is embedded over any implementation of it. *)
Variable toRaw : Event -> Z.

(** An input port and the raw messages it has handed to the transport,
    in order. *)
Record InPortW : Type := mkInPortW {
  in_port : SystemPort;
  written : list Z
}.

(** [SystemInPort.writeEvent]; [errNum] is what [Pm_Write] returns.  The
    method call on a nil [Event] panics. *)
Definition writeEvent (errNum : Z) (event : option Event) : M InPortW error :=
  fun w =>
    match event with
    | None => (Panic, w)
    | Some e =>
        (Ret (makePortMidiError errNum),
         mkInPortW (in_port w) (written w ++ [toRaw e]))
    end.

(** [SystemInPort.WriteRawEvent] *)
Definition WriteRawEvent (errNum : Z) (m : Message) : M InPortW error :=
  writeEvent errNum (Some (RawMessage m)).

(** The case Go picks at a [select] when both are ready. *)
Inductive SelectCase : Type :=
| SelEvents
| SelStop.

(** What one iteration of [SystemInPort.Run] gets from outside: the
    pick of the [select] and the result of [Pm_Write]. *)
Record InAnswers : Type := mkInAnswers {
  in_pick : SelectCase;
  pm_write : Z
}.

(** The case of the [select] of [SystemInPort.Run] that is taken: the
    one that is ready, the pick when both are, none (the loop blocks)
    when neither is. *)
Definition in_select (s : SystemPort) (pick : SelectCase) : option SelectCase :=
  match ready (events s), ready (stop s) with
  | true, true => Some pick
  | true, false => Some SelEvents
  | false, true => Some SelStop
  | false, false => None
  end.

(** One iteration of [SystemInPort.Run]: [true] when the loop returned.
    The error of [writeEvent] is dropped. *)
Definition SystemInPort_Run_iter (a : InAnswers) : M InPortW bool :=
  fun w =>
    match in_select (in_port w) (in_pick a) with
    | None => (Block, w)
    | Some SelEvents =>
        match recv (events (in_port w)) with
        | Ret (e, c) =>
            match writeEvent (pm_write a) e
                    (mkInPortW (set_events c (in_port w)) (written w)) with
            | (Ret _, w') => (Ret false, w')
            | (Block, w') => (Block, w')
            | (Panic, w') => (Panic, w')
            end
        | Block => (Block, w)
        | Panic => (Panic, w)
        end
    | Some SelStop =>
        match recv (stop (in_port w)) with
        | Ret (_, c) => (Ret true, mkInPortW (set_stop c (in_port w)) (written w))
        | Block => (Block, w)
        | Panic => (Panic, w)
        end
    end.

(** [SystemInPort.Run] over what the successive iterations get:
    [Some tt] when the loop returned, [None] when the answers ran out
    with the loop still running. *)
Fixpoint SystemInPort_Run (answers : list InAnswers) : M InPortW (option unit) :=
  match answers with
  | [] => ret None
  | a :: rest =>
      returned <- SystemInPort_Run_iter a ;;
      if (returned : bool) then ret (Some tt) else SystemInPort_Run rest
  end.

End InPort.

(** ** The other connectors *)

Section MoreConnectors.
Context {D : DeviceImpl}.

(** [Pipe.Stop], on the devices and the channel that [p.stop] refers
    to. *)
Definition Pipe_Stop (p : Pipe) : M FunnelW error :=
  signal_stop ;;;
  err <- lift_world (Device_Close (pFrom p)) ;;
  match err with
  | Some _ => ret err
  | None => lift_world (Device_Close (pTo p))
  end.

Record Router : Type := mkRouter {
  rFrom : Device;
  rTo : list Device;
  rstop : option (chan bool)
}.

(** [Router{}] *)
Definition emptyRouter : Router := mkRouter None [] None.

(** [for _, d := range ds { err = d.Open(); if err != nil { return } }] *)
Fixpoint open_all (ds : list Device) : M World error :=
  match ds with
  | [] => ret None
  | d :: rest =>
      err <- Device_Open d ;;
      match err with
      | Some _ => ret err
      | None => open_all rest
      end
  end.

(** [NewRouter] *)
Definition NewRouter (from : Device) (to : list Device) : M World (Router * error) :=
  let r := mkRouter from to (Some (make 1)) in
  err <- Device_Open (rFrom r) ;;
  match err with
  | Some _ => ret (emptyRouter, err)
  | None =>
      err <- open_all (rTo r) ;;
      match err with
      | Some _ => ret (emptyRouter, err)
      | None => ret (r, err)
      end
  end.

(** [Router.Stop], on the devices and the channel that [r.stop] refers
    to. *)
Definition Router_Stop (r : Router) : M FunnelW error :=
  signal_stop ;;;
  err <- lift_world (Device_Close (rFrom r)) ;;
  match err with
  | Some _ => ret err
  | None => close_all (rTo r)
  end.

(** [NewFunnel]: the funnel, the channel of its [stop] field and the
    error.  [Funnel{}] has no devices and a nil channel. *)
Definition NewFunnel (to : Device) (from : list Device)
  : M World (Funnel * option (chan bool) * error) :=
  let f := mkFunnel from to in
  err <- Device_Open (fTo f) ;;
  match err with
  | Some _ => ret (mkFunnel [] None, None, err)
  | None =>
      err <- open_all (fFrom f) ;;
      match err with
      | Some _ => ret (mkFunnel [] None, None, err)
      | None => ret (f, Some (make 1), err)
      end
  end.

(** What [Chain.Stop] acts on: the devices and the channels that the
    [stop] fields of the pipes refer to, pipe by pipe. *)
Record ChainW : Type := mkChainW {
  cw_world : World;
  cw_stops : list (option (chan bool))
}.

(** A method of the [i]-th pipe, on its own stop channel. *)
Definition on_pipe {A} (i : nat) (m : M FunnelW A) : M ChainW A :=
  fun s =>
    let '(r, w) := m (mkFunnelW (cw_world s) (default None (cw_stops s !! i))) in
    (r, mkChainW (fw_world w) (<[i := fw_stop w]> (cw_stops s))).

(** [for _, pipe := range c.pipes { err = pipe.Stop() }; return err] *)
Fixpoint Chain_Stop_loop (i : nat) (ps : list Pipe) (err : error) : M ChainW error :=
  match ps with
  | [] => ret err
  | p :: rest =>
      err <- on_pipe i (Pipe_Stop p) ;;
      Chain_Stop_loop (S i) rest err
  end.

(** [Chain.Stop] *)
Definition Chain_Stop (c : Chain) : M ChainW error :=
  Chain_Stop_loop 0 (pipes c) None.

(** The calls that are [Close] calls. *)
Definition is_close_call (c : Call) : bool :=
  match c with
  | CallOpen _ => false
  | CallClose _ => true
  end.

(** The pipes of a chain over [devices]: one per pair of neighbours. *)
Fixpoint chain_pipes (devices : list Device) : list Pipe :=
  match devices with
  | a :: (b :: _) as rest => mkPipe a b (Some (make 1)) :: chain_pipes rest
  | _ => []
  end.

(** The devices of a list that are in the store. *)
Definition in_store (w : World) (d : Device) : Prop :=
  exists h, d = Some h /\ is_Some (devs w !! h).

End MoreConnectors.

(** A device that can always be opened and closed, for tests. *)
Definition plainDevice : DeviceImpl := {|
  DevState := bool;
  dev_Open := fun _ => (Ret None, true);
  dev_Close := fun _ => (Ret None, false)
|}.

(** The calls that open, and that close, the two devices of each pipe
    of a list, pipe by pipe, [From] before [To]. *)
Definition pipe_calls (c : nat -> Call) (ps : list Pipe) : list Call :=
  flat_map (fun p => match pFrom p, pTo p with
                     | Some a, Some b => [c a; c b]
                     | _, _ => []
                     end) ps.

(** ** Invariants and schedules *)

(** An open output port whose channels are empty. *)
Definition idle_port : PortW :=
  mkPortW (mkSystemPort true 0 (Some 1) (Some (make 2)) (Some (make 1))) [].


(** The calls that are [Open] calls. *)
Definition is_open_call (c : Call) : bool :=
  match c with
  | CallOpen _ => true
  | CallClose _ => false
  end.


(** The world after the method [call] was called on each device of
    [hs] in turn and every call returned a nil error; [None] when one
    of the calls did not. *)
Fixpoint all_succeed {D : DeviceImpl} (call : Device -> M World error)
    (hs : list nat) (w : World) : option World :=
  match hs with
  | [] => Some w
  | h :: rest =>
      match call (Some h) w with
      | (Ret None, w1) => all_succeed call rest w1
      | _ => None
      end
  end.

(** A device for tests whose [Close] fails unless it is open. *)
Definition strictDevice : DeviceImpl := {|
  DevState := bool;
  dev_Open := fun _ => (Ret None, true);
  dev_Close := fun b =>
    if b then (Ret None, false) else (Ret (Some "not open"%string), b)
|}.

(** Three such devices, the second of which is not open. *)
Definition three_devices : @World strictDevice :=
  @mkWorld strictDevice [true; false; true] [].

(** Two test devices, the second of which cannot be opened. *)
Definition two_devices : @World testDevice :=
  @mkWorld testDevice [mkTestDev true false; mkTestDev false false] [].

(** What holds of a pipe in every state it reaches: the capacity of the
    destination channel stays what it was; the events the producer has
    sent into the source are, in order, those the reader of the
    destination has taken, those that wait in the destination channel,
    the one the loop holds and those that wait in the source channel;
    after an exit on a closed source that source is empty; and the
    loop has died only of a send on a closed destination. *)
Definition pipe_inv (n : nat) (s : PipeSt) : Prop :=
  cap (p_output s) = n /\
  p_sent s = p_taken s ++ buf (p_output s) ++ in_flight (p_pc s) ++ buf (p_input s) /\
  (p_pc s = PReturned SourceClosed ->
   buf (p_input s) = [] /\ closed (p_input s) = true) /\
  (forall e, p_pc s = PPanicked e -> closed (p_output s) = true).

(** The actions of the loop itself and of the reader of the destination:
    no stop signal is among them. *)
Definition pipe_forwarding (a : PipeAct) : bool :=
  match a with
  | PRecv | PSend | PConsume => true
  | _ => false
  end.

(** What holds of a router in every state it reaches: there are [N]
    destination channels, of [n] slots each; no goroutine is past the
    last destination; the events the loop has got out of the source
    channel are those of the goroutines, one goroutine each and in
    order, and with those that wait in the source channel they are the
    events the producer has sent; and what has reached a destination
    is, up to order, the events of the goroutines that have written
    that destination. *)
Definition router_inv (n N : nat) (s : RouterSt) : Prop :=
  length (r_dests s) = N /\
  Forall (fun d => cap d = n) (r_dests s) /\
  Forall (fun x : Event * nat => (snd x <= N)%nat) (r_tasks s) /\
  r_received s = map fst (r_tasks s) /\
  r_sent s = r_received s ++ buf (r_source s) /\
  forall j, arrived j s ≡ₚ passed j (r_tasks s).

(** The actions of the spawned goroutines and of the readers of the
    destinations. *)
Definition router_delivering (a : RouterAct) : bool :=
  match a with
  | RTask _ | RConsume _ => true
  | _ => false
  end.

(** What holds of a funnel in every state it reaches: the stop slot is
    the open one-slot channel of [NewFunnel]; the tokens in the slot and
    those taken add up to those [Stop] sent and those sent again; a
    token taken was sent again unless the goroutine that took it stands
    at its re-send; and the goroutines that have returned are as many
    as the tokens sent again. *)
Definition funnel_inv (N : nat) (s : FunnelSt) : Prop :=
  length (f_tasks s) = N /\
  cap (f_stop s) = 1%nat /\ closed (f_stop s) = false /\
  (length (buf (f_stop s)) + f_taken s = f_signalled s + f_resent s)%nat /\
  (f_taken s = f_resent s + count_pc is_resend (f_tasks s))%nat /\
  count_pc is_exited (f_tasks s) = f_resent s.

(** The steps by which the goroutines pass the stop token on. *)
Definition funnel_stopping (a : FunnelAct) : bool :=
  match a with
  | FTakeStop _ | FResendStop _ => true
  | _ => false
  end.

(** A goroutine is idle at its [select] or after it has returned. *)
Definition idle (t : FunnelPc) : bool := is_select t || is_exited t.

(** A funnel of two sources after [Stop] has sent its token and the
    second goroutine has taken it. *)
Definition token_taken : FunnelSt :=
  mkFunnelSt [make 2; make 2] (make 2) (Chan 1 [] false) [FSelect; FResend]
    1 1 0 false.

(** * Properties *)

(** ** Frames and their bytes *)

Ltac bits_cases n :=
  repeat match goal with
         | |- context [Z.ltb ?a ?b] => destruct (Z.ltb_spec a b)
         | |- context [Z.leb ?a ?b] => destruct (Z.leb_spec a b)
         end;
  repeat match goal with
         | |- context [Z.testbit ?x ?i] =>
             assert (i < 0) by lia; rewrite (Z.testbit_neg_r x i) by lia
         end;
  repeat rewrite ?andb_false_r, ?andb_true_r, ?orb_false_r, ?orb_false_l,
    ?andb_false_l; try reflexivity; try lia.

Ltac bits :=
  change 255 with (Z.ones 8); change 15 with (Z.ones 4);
  change 240 with (Z.shiftl (Z.ones 4) 4);
  apply Z.bits_inj'; intros n Hn;
  repeat first
    [ rewrite Z.land_spec | rewrite Z.lor_spec
    | rewrite Z.shiftr_spec by lia | rewrite Z.shiftl_spec by lia
    | rewrite Z.testbit_ones by lia
    | rewrite Z.testbit_0_l ];
  bits_cases n.

Lemma status_nibbles (f : Z) :
  Z.lor (Z.land (Z.land f 0xFF) 0xF0) (Z.land (Z.land f 0xFF) 0x0F) = Z.land f 0xFF.
Proof.
  bits.
Qed.

Lemma packed_status (s x y : Z) :
  Z.land (Z.lor (Z.lor (Z.land s 0xFF) (Z.shiftl x 8)) (Z.shiftl y 16)) 0xFF
  = Z.land s 0xFF.
Proof.
  bits.
Qed.

Lemma packed_data1 (s x y : Z) :
  Z.land (Z.shiftr (Z.lor (Z.lor (Z.land s 0xFF) (Z.shiftl (Z.land x 0xFF) 8))
                          (Z.shiftl y 16)) 8) 0xFF
  = Z.land x 0xFF.
Proof.
  bits; replace (n + 8 - 8) with n by lia; bits_cases n.
Qed.

Lemma packed_data2 (s x y : Z) :
  Z.land (Z.shiftr (Z.lor (Z.lor (Z.land s 0xFF) (Z.shiftl (Z.land x 0xFF) 8))
                          (Z.shiftl (Z.land y 0xFF) 16)) 16) 0xFF
  = Z.land y 0xFF.
Proof.
  bits; replace (n + 16 - 16) with n by lia; bits_cases n.
Qed.

Section PortProperties.
Context {env : MidiEnv}.

(** The message [readEvent] builds from a frame it has read. *)
Lemma readEvent_frame (f : Z) :
  fst (readEvent (mkPmAnswers (1, None) (1, f)))
  = mkMessage (frame_channel f) (frame_command f) (frame_data1 f) (frame_data2 f).
Proof. reflexivity. Qed.

Lemma classify_NOTE_ON (m : Message) :
  Command m = NOTE_ON -> classify m = NoteOn (Channel m) (Data1 m) (Data2 m).
Proof.
  intros H. unfold classify. rewrite H, Z.eqb_refl. reflexivity.
Qed.

Lemma classify_NOTE_OFF (m : Message) :
  Command m <> NOTE_ON -> Command m = NOTE_OFF ->
  classify m = NoteOff (Channel m) (Data1 m) 0.
Proof.
  intros Hon H. unfold classify.
  destruct (Z.eqb_spec (Command m) NOTE_ON); [contradiction |].
  rewrite H, Z.eqb_refl. reflexivity.
Qed.

Lemma classify_CONTROL_CHANGE (m : Message) :
  Command m <> NOTE_ON -> Command m <> NOTE_OFF -> Command m = CONTROL_CHANGE ->
  classify m = ControlChange (Channel m) (Data1 m) (Data2 m)
                 (default "Unknown"%string (ControlChangeNames !! Data1 m)).
Proof.
  intros Hon Hoff H. unfold classify.
  destruct (Z.eqb_spec (Command m) NOTE_ON); [contradiction |].
  destruct (Z.eqb_spec (Command m) NOTE_OFF); [contradiction |].
  rewrite H, Z.eqb_refl.
  destruct (ControlChangeNames !! Data1 m); reflexivity.
Qed.

Lemma classify_default (m : Message) :
  Command m <> NOTE_ON -> Command m <> NOTE_OFF -> Command m <> CONTROL_CHANGE ->
  classify m = RawMessage m.
Proof.
  intros Hon Hoff Hcc. unfold classify.
  destruct (Z.eqb_spec (Command m) NOTE_ON); [contradiction |].
  destruct (Z.eqb_spec (Command m) NOTE_OFF); [contradiction |].
  destruct (Z.eqb_spec (Command m) CONTROL_CHANGE); [contradiction |].
  reflexivity.
Qed.

(** The raw encoding of the event published for a frame, byte by byte.
    Only a frame classified as a note-off changes, in its second data
    byte. *)
Lemma ToRawMessage_classify_frame (f : Z) :
  let r := ToRawMessage (classify_frame f) in
  frame_status r = frame_status f /\
  frame_data1 r = frame_data1 f /\
  frame_data2 r =
    (if negb (Z.eqb (frame_command f) NOTE_ON) && Z.eqb (frame_command f) NOTE_OFF
     then 0 else frame_data2 f).
Proof.
  unfold classify_frame. rewrite readEvent_frame.
  set (m := mkMessage _ _ _ _).
  assert (Hst : forall c, c = frame_command f ->
                          Z.lor c (frame_channel f) = Z.land f 0xFF).
  { intros c ->. apply status_nibbles. }
  assert (Hpack : forall c d2,
             c = frame_command f ->
             let r := Message_ToRawMessage (mkMessage (frame_channel f) c (frame_data1 f)
                                              (Z.land d2 0xFF)) in
             frame_status r = frame_status f /\
             frame_data1 r = frame_data1 f /\
             frame_data2 r = Z.land d2 0xFF).
  { intros c d2 Hc. unfold Message_ToRawMessage; cbn [Channel Command Data1 Data2].
    rewrite (Hst c Hc). unfold frame_status, frame_data1, frame_data2.
    rewrite packed_status, packed_data1, packed_data2. auto. }
  unfold classify; cbn [Command m].
  destruct (Z.eqb_spec (frame_command f) NOTE_ON) as [Hon | Hon]; cbn [negb andb].
  - cbn [ToRawMessage Channel Data1 Data2 m]. apply (Hpack NOTE_ON (Z.shiftr f 16)); auto.
  - destruct (Z.eqb_spec (frame_command f) NOTE_OFF) as [Hoff | Hoff].
    + cbn [ToRawMessage Channel Data1 Data2 m].
      apply (Hpack NOTE_OFF 0); auto.
    + destruct (Z.eqb_spec (frame_command f) CONTROL_CHANGE) as [Hcc | Hcc].
      * cbn [ToRawMessage Channel Data1 Data2 m].
        apply (Hpack CONTROL_CHANGE (Z.shiftr f 16)); auto.
      * cbn [ToRawMessage]. apply (Hpack (frame_command f) (Z.shiftr f 16)); auto.
Qed.

End PortProperties.

(** ** The classification of an output port *)

Lemma readEvent_nil_error {env : MidiEnv} (a : PmAnswers) : snd (readEvent a) = None.
Proof.
  unfold readEvent. destruct (pm_read a) as [eventsRead message]. reflexivity.
Qed.

Lemma readEvent_nothing_read {env : MidiEnv} (a : PmAnswers) :
  fst (pm_read a) <= 0 -> fst (readEvent a) = zeroMessage.
Proof.
  unfold readEvent. destruct (pm_read a) as [eventsRead message]; cbn [fst].
  intros H. destruct (Z.ltb_spec 0 eventsRead); [lia | reflexivity].
Qed.

Lemma Run_iter_never_retries {env : MidiEnv} (a : PmAnswers) (w : PortW) :
  fst (SystemOutPort_Run_iter a w) <> Ret IterRetry.
Proof.
  unfold SystemOutPort_Run_iter, bind, take_stop, get, ret.
  destruct (recv (stop (port w))) as [[v c] | |]; cbn; try discriminate.
  destruct (poll (port w) a) as [dataAvailable [err |]]; cbn; try discriminate.
  destruct dataAvailable; cbn; try discriminate.
  pose proof (readEvent_nil_error a) as Hnil.
  destruct (readEvent a) as [m err]; cbn in Hnil; subst err.
  unfold send_event.
  destruct (send _ _); cbn; discriminate.
Qed.

(** C1 (the code departs from it): a raw note-on frame with velocity 0
    is published by [SystemOutPort.Run] as a [NoteOn] with velocity 0,
    not as a [NoteOff]: the [NOTE_ON] case of the switch does not look
    at [Data2].  For every choice of the command constants, and at the
    frame 0x003C90 (note-on, channel 0, key 60, velocity 0) of MIDI
    1.0. *)
Theorem Run_note_on_zero_velocity_is_NoteOn :
  (forall (env : MidiEnv) (ch key : Z),
      classify (mkMessage ch NOTE_ON key 0) = NoteOn ch key 0) /\
  @classify_frame midi10 0x003C90 = NoteOn 0 60 0 /\
  @classify_frame midi10 0x003C90 <> NoteOff 0 60 0.
Proof.
  split; [| split].
  - intros env ch key. apply classify_NOTE_ON. reflexivity.
  - reflexivity.
  - discriminate.
Qed.

(** C2, as stated, fails: the note-off frame 0x403C80 (channel 0, key
    60, release velocity 64) is not a note-on, and yet the event
    published for it encodes to a frame whose second data byte is 0, not
    64. *)
Lemma note_off_velocity_not_preserved :
  frame_command 0x403C80 <> @NOTE_ON midi10 /\
  frame_data2 0x403C80 = 64 /\
  frame_data2 (@ToRawMessage midi10 (@classify_frame midi10 0x403C80)) = 0 /\
  frame_data2 (@ToRawMessage midi10 (@classify_frame midi10 0x403C80))
    <> frame_data2 0x403C80.
Proof.
  repeat split; vm_compute; congruence.
Qed.

(** C2, amended: for every raw frame an output port classifies, other
    than a note-on with zero velocity, the raw encoding of the published
    event has the status and the first data byte of the frame, and its
    second data byte too unless the frame is a note-off, for which it
    is 0. *)
Theorem ToRawMessage_roundtrip {env : MidiEnv} (f : Z) :
  NOTE_ON <> NOTE_OFF ->
  ~ (frame_command f = NOTE_ON /\ frame_data2 f = 0) ->
  let r := ToRawMessage (classify_frame f) in
  frame_status r = frame_status f /\
  frame_data1 r = frame_data1 f /\
  frame_data2 r = (if Z.eqb (frame_command f) NOTE_OFF then 0 else frame_data2 f).
Proof.
  intros Hne _ r.
  destruct (ToRawMessage_classify_frame f) as (Hs & H1 & H2).
  repeat split; auto.
  fold r in H2. rewrite H2.
  destruct (Z.eqb_spec (frame_command f) NOTE_ON) as [Hon | Hon];
    destruct (Z.eqb_spec (frame_command f) NOTE_OFF) as [Hoff | Hoff];
    cbn; congruence.
Qed.

Lemma ToRawMessage_roundtrip_witness :
  (@NOTE_ON midi10 <> @NOTE_OFF midi10 /\
   ~ (frame_command 0x403C80 = @NOTE_ON midi10 /\ frame_data2 0x403C80 = 0)) /\
  (frame_status (@ToRawMessage midi10 (@classify_frame midi10 0x403C80))
     = frame_status 0x403C80 /\
   frame_data1 (@ToRawMessage midi10 (@classify_frame midi10 0x403C80))
     = frame_data1 0x403C80 /\
   frame_data2 (@ToRawMessage midi10 (@classify_frame midi10 0x403C80)) = 0).
Proof.
  split.
  - split; [vm_compute; lia | vm_compute; intros [H _]; lia].
  - apply (@ToRawMessage_roundtrip midi10 0x403C80).
    + vm_compute; lia.
    + vm_compute; intros [H _]; lia.
Defined.

(** C10: [readEvent] returns a nil error for every answer of the
    transport, so no iteration of [SystemOutPort.Run] ends in its retry
    branch; and when the transport read yields no event, [readEvent]
    returns the all-zero [Message], which [Run] sends on the channel as
    it is, through the default branch of the switch (0 being none of the
    three commands). *)
Theorem readEvent_never_fails {env : MidiEnv} :
  (forall a, snd (readEvent a) = None) /\
  (forall a w, fst (SystemOutPort_Run_iter a w) <> Ret IterRetry) /\
  (forall a, fst (pm_read a) <= 0 -> fst (readEvent a) = zeroMessage) /\
  (forall a w c,
      NOTE_ON <> 0 -> NOTE_OFF <> 0 -> CONTROL_CHANGE <> 0 ->
      fst (pm_read a) <= 0 ->
      recv (stop (port w)) = Block ->
      poll (port w) a = (true, None) ->
      events (port w) = Some c -> closed c = false -> has_room c = true ->
      SystemOutPort_Run_iter a w
      = (Ret IterPublished,
         mkPortW (set_events (push c (RawMessage zeroMessage)) (port w))
                 (effects w ++ [EventSent (RawMessage zeroMessage)]))).
Proof.
  split; [exact readEvent_nil_error |].
  split; [exact Run_iter_never_retries |].
  split; [exact readEvent_nothing_read |].
  intros a w c Hon Hoff Hcc Hread Hstop Hpoll Hev Hopen Hroom.
  unfold SystemOutPort_Run_iter, bind, take_stop, get, ret.
  rewrite Hstop, Hpoll. cbn.
  pose proof (readEvent_nil_error a) as Hnil.
  pose proof (readEvent_nothing_read a Hread) as Hzero.
  destruct (readEvent a) as [m err]; cbn in Hnil, Hzero; subst err m.
  rewrite classify_default by (cbn; congruence).
  unfold send_event, send. rewrite Hev, Hopen, Hroom. reflexivity.
Qed.

Lemma readEvent_never_fails_witness :
  @SystemOutPort_Run_iter midi10 (mkPmAnswers (1, None) (0, 0)) idle_port
  = (Ret IterPublished,
     mkPortW (mkSystemPort true 0 (Some 1)
                (Some (Chan 2 [RawMessage zeroMessage] false)) (Some (make 1)))
             [EventSent (RawMessage zeroMessage)]).
Proof.
  apply (proj2 (proj2 (proj2 (@readEvent_never_fails midi10)))
           (mkPmAnswers (1, None) (0, 0)) idle_port (make 2));
    vm_compute; congruence.
Defined.

(** ** Closing a port *)

Lemma SystemPort_Close_closed {env : MidiEnv} (errNum : Z) (w : PortW) :
  isOpen (port w) = false -> SystemPort_Close errNum w = (Ret None, w).
Proof.
  intros H. unfold SystemPort_Close, bind, get. rewrite H. reflexivity.
Qed.

(** C4 (the code departs from it): [Close] on a closed [FakePort]
    panics.  [FakePort.Close] closes its channel whatever [isOpen] says:
    on a port that was opened and closed the channel is closed already,
    and on a port that was never opened it is nil; [close] panics on
    both.  [SystemPort.Close] has the guard: on a closed port it returns
    nil and leaves the port, its channels and the transport alone. *)
Theorem FakePort_Close_closed_panics {env : MidiEnv} :
  (forall t : FakePort,
      let opened := snd (FakePort_Open t) in
      let closed := snd (FakePort_Close opened) in
      fst (FakePort_Close opened) = Ret None /\
      FakePort_IsOpen closed = false /\
      FakePort_Close closed = (Panic, closed)) /\
  (forall b : bool,
      FakePort_Close (mkFakePort false None b) = (Panic, mkFakePort false None b)) /\
  (forall (errNum : Z) (s : SystemPort) (l : list Effect),
      SystemPort_Close errNum (mkPortW (set_isOpen false s) l)
      = (Ret None, mkPortW (set_isOpen false s) l)).
Proof.
  split; [| split].
  - intros t. cbn. auto.
  - intros b. reflexivity.
  - intros errNum s l. apply SystemPort_Close_closed. reflexivity.
Qed.

Lemma SystemPort_Close_open_eq {env : MidiEnv} (errNum : Z) (w : PortW) :
  isOpen (port w) = true ->
  SystemPort_Close errNum w =
  let s := set_isOpen false (port w) in
  match send (stop (port w)) true with
  | Ret c =>
      match close (events (port w)) with
      | Ret c' =>
          (Ret (makePortMidiError errNum),
           mkPortW (set_events c' (set_stop c s))
                   (effects w ++ [StopSent; PmClosed; EventsClosed]))
      | Block => (Block, mkPortW (set_stop c s) (effects w ++ [StopSent; PmClosed]))
      | Panic => (Panic, mkPortW (set_stop c s) (effects w ++ [StopSent; PmClosed]))
      end
  | Block => (Block, mkPortW s (effects w))
  | Panic => (Panic, mkPortW s (effects w))
  end.
Proof.
  intros H.
  unfold SystemPort_Close, bind, get, on_port, log, modify, send_stop, close_events, ret.
  rewrite H. cbn.
  destruct (send (stop (port w)) true) as [c | |]; cbn; try reflexivity.
  destruct (close (events (port w))) as [c' | |]; cbn;
    rewrite <- ?app_assoc; reflexivity.
Qed.

(** An iteration of [SystemOutPort.Run] is its part up to the send,
    then the send. *)
Lemma SystemOutPort_Run_iter_split {env : MidiEnv} (a : PmAnswers) (w : PortW) :
  SystemOutPort_Run_iter a w
  = (r <- SystemOutPort_Run_begin a ;;
     match r with
     | inl it => ret it
     | inr e => SystemOutPort_Run_finish e
     end) w.
Proof.
  unfold SystemOutPort_Run_iter, SystemOutPort_Run_begin, SystemOutPort_Run_finish,
    bind, get, ret.
  destruct (take_stop w) as [[[|] | |] w1]; try reflexivity.
  destruct (poll (port w1) a) as [dataAvailable [err |]]; [reflexivity |].
  destruct (negb dataAvailable); [reflexivity |].
  destruct (readEvent a) as [m [err |]]; reflexivity.
Qed.




(** ** Construction of pipes and chains *)

Section ConstructionProperties.
Context {D : DeviceImpl}.

(** A method call adds its own entry to the calls, and nothing else. *)
Lemma call_method_calls (m : M DevState error) (c : nat -> Call) (d : Device)
    (w w' : World) (r : result error) :
  call_method m c d w = (r, w') ->
  w' = w \/ exists h, d = Some h /\ calls w' = calls w ++ [c h].
Proof.
  unfold call_method. destruct d as [h |]; [| intros [= _ <-]; auto].
  destruct (devs w !! h) as [st |]; [| intros [= _ <-]; auto].
  destruct (m st) as [r0 st']. intros [= _ <-]. right. eauto.
Qed.

Lemma Device_Open_calls (d : Device) (w w' : World) (r : result error) :
  Device_Open d w = (r, w') ->
  exists new, calls w' = calls w ++ new /\ forallb is_open_call new = true.
Proof.
  intros H. apply call_method_calls in H as [-> | (h & _ & ->)].
  - exists []. rewrite app_nil_r. auto.
  - exists [CallOpen h]. auto.
Qed.

(** [NewPipe] calls nothing but [Open]. *)
Lemma NewPipe_calls (from to : Device) (w w' : World) (r : result (Pipe * error)) :
  NewPipe from to w = (r, w') ->
  exists new, calls w' = calls w ++ new /\ forallb is_open_call new = true.
Proof.
  unfold NewPipe, bind, ret. cbn [pFrom pTo].
  destruct (Device_Open from w) as [r1 w1] eqn:H1.
  apply Device_Open_calls in H1 as (n1 & E1 & F1).
  assert (Hstop : forall r0, (r0, w1) = (r, w') ->
            exists new, calls w' = calls w ++ new /\ forallb is_open_call new = true).
  { intros r0 [= _ <-]. eauto. }
  destruct r1 as [[e |] | |]; eauto.
  destruct (Device_Open to w1) as [r2 w2] eqn:H2.
  apply Device_Open_calls in H2 as (n2 & E2 & F2).
  assert (Hboth : forall r0, (r0, w2) = (r, w') ->
            exists new, calls w' = calls w ++ new /\ forallb is_open_call new = true).
  { intros r0 [= _ <-]. exists (n1 ++ n2).
    rewrite E2, E1, <- app_assoc, forallb_app, F1, F2. auto. }
  destruct r2 as [[e |] | |]; eauto.
Qed.

End ConstructionProperties.

(** C8: [NewPipe] opens [From], then [To].  When the first open fails,
    the second is not attempted; when either fails, [NewPipe] returns
    the empty [Pipe] with the error; and whatever happens, the only
    calls it makes on devices are [Open] calls: a device it has opened
    is not closed again. *)
Theorem NewPipe_no_rollback {D : DeviceImpl} (from to : Device) (w : World) :
  (forall e w1,
      Device_Open from w = (Ret (Some e), w1) ->
      NewPipe from to w = (Ret (emptyPipe, Some e), w1)) /\
  (forall e w1 w2,
      Device_Open from w = (Ret None, w1) ->
      Device_Open to w1 = (Ret (Some e), w2) ->
      NewPipe from to w = (Ret (emptyPipe, Some e), w2)) /\
  (forall w1 w2,
      Device_Open from w = (Ret None, w1) ->
      Device_Open to w1 = (Ret None, w2) ->
      NewPipe from to w = (Ret (mkPipe from to (Some (make 1)), None), w2)) /\
  (forall r w',
      NewPipe from to w = (r, w') ->
      exists new, calls w' = calls w ++ new /\ forallb is_open_call new = true).
Proof.
  repeat split.
  - intros e w1 H. unfold NewPipe, bind, ret; cbn [pFrom pTo]. rewrite H. reflexivity.
  - intros e w1 w2 H1 H2. unfold NewPipe, bind, ret; cbn [pFrom pTo].
    rewrite H1, H2. reflexivity.
  - intros w1 w2 H1 H2. unfold NewPipe, bind, ret; cbn [pFrom pTo].
    rewrite H1, H2. reflexivity.
  - intros r w'. apply NewPipe_calls.
Qed.

Lemma NewPipe_no_rollback_witness :
  @NewPipe testDevice (Some 0%nat) (Some 1%nat) two_devices
  = (Ret (emptyPipe, Some "cannot open"%string),
     @mkWorld testDevice [mkTestDev true true; mkTestDev false false]
       [CallOpen 0; CallOpen 1]).
Proof.
  apply (proj1 (proj2 (@NewPipe_no_rollback testDevice (Some 0%nat) (Some 1%nat)
                         two_devices))
           "cannot open"%string
           (@mkWorld testDevice [mkTestDev true true; mkTestDev false false]
              [CallOpen 0])); reflexivity.
Defined.

(** C9: [NewChain] without devices panics, at the allocation of a slice
    of length -1, before any device is touched; the allocation succeeds
    for every non-empty list of devices; and with exactly one device
    [NewChain] returns a [Chain] of that device with no [Pipe], a nil
    error, and has opened nothing. *)
Theorem NewChain_needs_a_device {D : DeviceImpl} :
  (forall w : World, NewChain [] w = (Panic, w)) /\
  make_slice emptyPipe (Z.of_nat (length (@nil Device)) - 1) = Panic /\
  (forall devices : list Device,
      devices <> [] ->
      make_slice emptyPipe (Z.of_nat (length devices) - 1)
      = Ret (replicate (length devices - 1) emptyPipe)) /\
  (forall (d : Device) (w : World),
      NewChain [d] w = (Ret (mkChain [d] [], None), w)).
Proof.
  repeat split.
  intros devices Hne. unfold make_slice.
  destruct devices as [| d rest]; [contradiction |]. cbn [length].
  destruct (Z.ltb_spec (Z.of_nat (S (length rest)) - 1) 0); [lia |].
  f_equal. f_equal. lia.
Qed.

Lemma NewChain_needs_a_device_witness :
  @NewChain testDevice [Some 0%nat] two_devices
  = (Ret (mkChain [Some 0%nat] [], None), two_devices) /\
  @NewChain testDevice [] two_devices = (Panic, two_devices).
Proof.
  split.
  - apply (proj2 (proj2 (proj2 (@NewChain_needs_a_device testDevice)))).
  - apply (proj1 (@NewChain_needs_a_device testDevice)).
Defined.

(** ** Runs of a system of goroutines *)

Lemma run_app {S A : Type} (step : A -> S -> option S) (l1 l2 : list A) (s : S) :
  run step (l1 ++ l2) s =
  match run step l1 s with
  | Some s' => run step l2 s'
  | None => None
  end.
Proof.
  revert s. induction l1 as [| a l1 IH]; intros s; cbn; [reflexivity |].
  destruct (step a s); auto.
Qed.

Lemma run_invariant {S A : Type} (step : A -> S -> option S) (P : S -> Prop) :
  (forall a s s', P s -> step a s = Some s' -> P s') ->
  forall acts s s', P s -> run step acts s = Some s' -> P s'.
Proof.
  intros Hstep acts. induction acts as [| a acts IH]; intros s s' HP Hrun; cbn in Hrun.
  - injection Hrun as <-. exact HP.
  - destruct (step a s) as [s1 |] eqn:E; [| discriminate]. eauto.
Qed.

(** ** Channel operations that succeed *)

Lemma recv_Some_inv {A} (c c' : chan A) (v : option A) :
  recv (Some c) = Ret (v, c') ->
  (exists e rest, buf c = e :: rest /\ v = Some e /\ c' = Chan (cap c) rest (closed c)) \/
  (buf c = [] /\ closed c = true /\ v = None /\ c' = c).
Proof.
  unfold recv. destruct (buf c) as [| e rest] eqn:E.
  - destruct (closed c); [| discriminate]. intros [= <- <-]. auto.
  - intros [= <- <-]. left. eauto.
Qed.

Lemma send_Some_inv {A} (c c' : chan A) (v : A) :
  send (Some c) v = Ret c' ->
  closed c = false /\ has_room c = true /\ c' = push c v.
Proof.
  unfold send. destruct (closed c); [discriminate |].
  destruct (has_room c); [| discriminate]. intros [= <-]. auto.
Qed.

Lemma send_Some_panic {A} (c : chan A) (v : A) :
  send (Some c) v = Panic -> closed c = true.
Proof.
  unfold send. destruct (closed c); [reflexivity |].
  destruct (has_room c); discriminate.
Qed.

Lemma close_Some_inv {A} (c c' : chan A) :
  close (Some c) = Ret c' ->
  closed c = false /\ c' = Chan (cap c) (buf c) true.
Proof.
  unfold close. destruct (closed c); [discriminate |]. intros [= <-]. auto.
Qed.

Ltac chan_inv :=
  repeat match goal with
         | H : recv (Some _) = Ret (_, _) |- _ =>
             apply recv_Some_inv in H as [(? & ? & ? & ? & ?) | (? & ? & ? & ?)]
         | H : send (Some _) _ = Ret _ |- _ =>
             apply send_Some_inv in H as (? & ? & ?)
         | H : send (Some _) _ = Panic |- _ =>
             apply send_Some_panic in H
         | H : close (Some _) = Ret _ |- _ =>
             apply close_Some_inv in H as (? & ?)
         end; simplify_eq.

(** ** Pipe.Connect *)

Ltac inv_step H :=
  repeat match type of H with
         | match ?x with _ => _ end = Some _ => destruct x eqn:?; try discriminate H
         | (if ?x then _ else _) = Some _ => destruct x eqn:?; try discriminate H
         | (let '(_, _) := ?x in _) = Some _ => destruct x eqn:?
         end;
  try (injection H as <-).

Lemma pipe_step_inv (n : nat) (a : PipeAct) (s s' : PipeSt) :
  pipe_inv n s -> pipe_step a s = Some s' -> pipe_inv n s'.
Proof.
  destruct s as [input output stop pc sent taken].
  unfold pipe_inv, pipe_step, pipe_alive; cbn [p_output p_pc p_sent p_taken p_input].
  intros (Hcap & Hfifo & Heof & Hpanic) H.
  destruct a, pc; cbn [negb] in H; try discriminate H; inv_step H; chan_inv;
    cbn [p_output p_pc p_sent p_taken p_input cap buf closed in_flight push] in *.
  all: try congruence.
  all: split; [assumption || reflexivity |].
  all: repeat match goal with
              | E : buf _ = _ |- _ => rewrite E in *
              end.
  all: cbn [app] in *.
  all: split; [rewrite <- ?app_assoc; cbn [app]; reflexivity |].
  all: split; [intros Hpc; try discriminate Hpc |
               intros e' Hpc; try discriminate Hpc].
  all: try (destruct (Heof Hpc) as [Hnil Hcl]).
  all: try (split; congruence).
  all: try congruence.
  all: try (eapply Hpanic; eassumption).
Qed.

Lemma pipe_init_inv (n : nat) : pipe_inv n (pipe_init n).
Proof.
  repeat split; try reflexivity; discriminate.
Qed.

Lemma pipe_reachable_inv (n : nat) (acts : list PipeAct) (s : PipeSt) :
  run pipe_step acts (pipe_init n) = Some s -> pipe_inv n s.
Proof.
  apply (run_invariant pipe_step (pipe_inv n) (pipe_step_inv n)), pipe_init_inv.
Qed.

Lemma pipe_step_eof (s : PipeSt) :
  p_pc s = PSelect -> buf (p_input s) = [] -> closed (p_input s) = true ->
  pipe_step PRecv s
  = Some (mkPipeSt (p_input s) (p_output s) (p_stop s) (PReturned SourceClosed)
            (p_sent s) (p_taken s)).
Proof.
  destruct s as [input output stop pc sent taken]; cbn. intros -> E C.
  unfold recv. rewrite E, C. reflexivity.
Qed.

Lemma pipe_step_stop (s : PipeSt) (b : bool) (rest : list bool) :
  p_pc s = PSelect -> buf (p_stop s) = b :: rest ->
  pipe_step PStop s
  = Some (mkPipeSt (p_input s) (p_output s)
            (Chan (cap (p_stop s)) rest (closed (p_stop s)))
            (PReturned Stopped) (p_sent s) (p_taken s)).
Proof.
  destruct s as [input output stop pc sent taken]; cbn. intros -> E.
  unfold recv. rewrite E. reflexivity.
Qed.

(** What the send of the loop does to the destination channel. *)
Lemma pipe_step_send (s : PipeSt) (e : Event) :
  p_pc s = PForward e ->
  pipe_step PSend s
  = if closed (p_output s)
    then Some (mkPipeSt (p_input s) (p_output s) (p_stop s) (PPanicked e)
                 (p_sent s) (p_taken s))
    else if has_room (p_output s)
         then Some (mkPipeSt (p_input s) (push (p_output s) e) (p_stop s) PSelect
                      (p_sent s) (p_taken s))
         else None.
Proof.
  destruct s as [input output stop pc sent taken].
  cbn [p_pc p_input p_output p_stop p_sent p_taken]. intros ->.
  unfold pipe_step, pipe_alive, send; cbn [p_pc negb].
  destruct (closed output); [reflexivity |].
  destruct (has_room output); reflexivity.
Qed.

(** A step of the loop or of the reader of the destination uses up the
    bound, sends nothing into the source, closes nothing and takes no
    stop signal. *)
Lemma pipe_step_variant (a : PipeAct) (s s' : PipeSt) :
  pipe_forwarding a = true -> pipe_step a s = Some s' ->
  (S (pipe_variant s') <= pipe_variant s)%nat /\
  p_sent s' = p_sent s /\
  closed (p_output s') = closed (p_output s) /\
  (p_pc s <> PReturned Stopped -> p_pc s' <> PReturned Stopped).
Proof.
  destruct s as [input output stop pc sent taken].
  unfold pipe_step, pipe_alive, pipe_variant;
    cbn [p_output p_pc p_sent p_taken p_input].
  intros Hf H.
  destruct a, pc; cbn [negb] in H; try discriminate H; try discriminate Hf;
    inv_step H; chan_inv;
    cbn [p_output p_pc p_sent p_taken p_input cap buf closed push] in *.
  all: repeat match goal with
              | E : buf _ = _ |- _ => rewrite E in *
              end.
  all: rewrite ?length_app; cbn [length].
  all: repeat split; try lia; try congruence; try discriminate.
Qed.

Lemma pipe_run_variant (acts : list PipeAct) (s s' : PipeSt) :
  forallb pipe_forwarding acts = true -> run pipe_step acts s = Some s' ->
  (length acts + pipe_variant s' <= pipe_variant s)%nat /\
  p_sent s' = p_sent s /\
  closed (p_output s') = closed (p_output s) /\
  (p_pc s <> PReturned Stopped -> p_pc s' <> PReturned Stopped).
Proof.
  revert s. induction acts as [| a acts IH]; intros s Hf Hrun; cbn in Hrun.
  - injection Hrun as <-. cbn. repeat split; auto.
  - cbn in Hf. apply andb_true_iff in Hf as [Ha Hf].
    destruct (pipe_step a s) as [s1 |] eqn:E; [| discriminate].
    destruct (pipe_step_variant a s s1 Ha E) as (Hv & Hs & Hc & Hp).
    destruct (IH s1 Hf Hrun) as (Hv' & Hs' & Hc' & Hp').
    cbn [length]. repeat split; try lia; try congruence. auto.
Qed.

(** The reader of the destination takes what waits in its channel. *)
Lemma pipe_step_consume (s : PipeSt) (e : Event) (rest : list Event) :
  pipe_alive s = true -> buf (p_output s) = e :: rest ->
  pipe_step PConsume s
  = Some (mkPipeSt (p_input s) (Chan (cap (p_output s)) rest (closed (p_output s)))
            (p_stop s) (p_pc s) (p_sent s) (p_taken s ++ [e])).
Proof.
  destruct s as [input output stop pc sent taken].
  cbn [p_pc p_input p_output p_stop p_sent p_taken]. intros Hal E.
  unfold pipe_step. rewrite Hal. cbn [negb]. unfold recv. rewrite E.
  destruct pc; reflexivity.
Qed.

(** While the destination is open and no stop signal was taken, the
    loop or the reader of the destination can step, unless the reader
    has taken all that was sent. *)
Lemma pipe_progress (n : nat) (s : PipeSt) :
  pipe_inv n s -> (0 < n)%nat -> closed (p_output s) = false ->
  p_pc s <> PReturned Stopped ->
  p_taken s = p_sent s \/
  exists a s', pipe_forwarding a = true /\ pipe_step a s = Some s'.
Proof.
  intros (Hcap & Hfifo & Heof & Hpanic) Hn Hopen Hstopped.
  destruct (buf (p_output s)) as [| y bo] eqn:Ebo.
  - destruct s as [input output stop pc sent taken];
      cbn [p_output p_pc p_sent p_taken p_input] in *.
    destruct pc as [| e | why | e].
    + destruct input as [ci [| x bi] cli].
      * destruct cli.
        -- right. exists PRecv. eexists. split; reflexivity.
        -- left. cbn in Hfifo. rewrite Hfifo, app_nil_r. reflexivity.
      * right. exists PRecv. eexists. split; reflexivity.
    + right. exists PSend. eexists. split; [reflexivity |].
      rewrite (pipe_step_send (mkPipeSt input output stop (PForward e) sent taken) e eq_refl).
      cbn [p_output]. rewrite Hopen.
      unfold has_room. rewrite Ebo, Hcap. cbn [length].
      destruct (Nat.ltb_spec 0 n); [reflexivity | lia].
    + destruct why; [| contradiction].
      destruct (Heof eq_refl) as [Hnil _].
      left. rewrite Hfifo, Hnil. cbn. rewrite app_nil_r. reflexivity.
    + specialize (Hpanic e eq_refl). congruence.
  - right. exists PConsume. eexists. split; [reflexivity |].
    apply (pipe_step_consume s y bo); [| exact Ebo].
    unfold pipe_alive. destruct (p_pc s) as [| e | why | e] eqn:Epc; try reflexivity.
    specialize (Hpanic e eq_refl). congruence.
Qed.

(** The loop returns from its [select] only: on a closed and empty
    source, or on the stop signal. *)
Lemma pipe_step_returns (a : PipeAct) (s s' : PipeSt) (why : Exit) :
  pipe_step a s = Some s' -> p_pc s' = PReturned why -> p_pc s <> PReturned why ->
  p_pc s = PSelect /\
  ((a = PRecv /\ why = SourceClosed /\
    buf (p_input s) = [] /\ closed (p_input s) = true) \/
   (a = PStop /\ why = Stopped /\
    (buf (p_stop s) <> [] \/ closed (p_stop s) = true))).
Proof.
  destruct s as [input output stop pc sent taken].
  unfold pipe_step, pipe_alive; cbn [p_output p_pc p_sent p_taken p_input p_stop].
  intros H Hpc' Hpc.
  destruct a, pc; cbn [negb] in H; try discriminate H; inv_step H; chan_inv;
    cbn [p_pc] in *; try congruence; try contradiction.
  all: split; [reflexivity |].
  all: try (left; repeat split; congruence).
  all: right; repeat split; try congruence.
  - left. congruence.
  - right. assumption.
Qed.

(** C3: in every state a pipe reaches, with the stop signal or without
    it, the events the producer has sent into the source channel are,
    unmodified and in order, those the reader of the destination has
    taken out of the destination channel, then those that wait in the
    destination channel, then the one the loop holds, then those that
    wait in the source channel: nothing is dropped, doubled, changed or
    reordered.  When the loop has returned because the source was
    closed, all that was sent is at the destination.  The send of the
    loop appends the event it holds to the destination channel, blocks
    while that channel is full and panics when it is closed.  While
    the destination is open and no stop signal was taken, every
    schedule of the loop and of the reader of the destination is
    shorter than the bound [pipe_variant], sends nothing new, and where
    it can go no further the reader has taken every event sent.  At its
    [select] the loop returns when the source is closed and empty and
    when the stop slot holds a signal, and it returns in no other
    way. *)
Theorem Pipe_Connect_forwards (n : nat) (acts : list PipeAct) (s : PipeSt) :
  run pipe_step acts (pipe_init n) = Some s ->
  p_sent s = p_taken s ++ buf (p_output s) ++ in_flight (p_pc s) ++ buf (p_input s) /\
  (p_pc s = PReturned SourceClosed -> p_taken s ++ buf (p_output s) = p_sent s) /\
  (forall e, p_pc s = PForward e ->
     pipe_step PSend s
     = if closed (p_output s)
       then Some (mkPipeSt (p_input s) (p_output s) (p_stop s) (PPanicked e)
                    (p_sent s) (p_taken s))
       else if has_room (p_output s)
            then Some (mkPipeSt (p_input s) (push (p_output s) e) (p_stop s) PSelect
                         (p_sent s) (p_taken s))
            else None) /\
  (forall acts' s',
      (0 < n)%nat -> closed (p_output s) = false -> p_pc s <> PReturned Stopped ->
      forallb pipe_forwarding acts' = true -> run pipe_step acts' s = Some s' ->
      (length acts' + pipe_variant s' <= pipe_variant s)%nat /\
      p_sent s' = p_sent s /\
      (p_taken s' = p_sent s \/
       exists a s'', pipe_forwarding a = true /\ pipe_step a s' = Some s'')) /\
  (p_pc s = PSelect -> buf (p_input s) = [] -> closed (p_input s) = true ->
   exists s', pipe_step PRecv s = Some s' /\ p_pc s' = PReturned SourceClosed) /\
  (p_pc s = PSelect -> buf (p_stop s) <> [] ->
   exists s', pipe_step PStop s = Some s' /\ p_pc s' = PReturned Stopped) /\
  (forall a s' why,
      pipe_step a s = Some s' -> p_pc s' = PReturned why -> p_pc s <> PReturned why ->
      p_pc s = PSelect /\
      ((a = PRecv /\ why = SourceClosed /\
        buf (p_input s) = [] /\ closed (p_input s) = true) \/
       (a = PStop /\ why = Stopped /\
        (buf (p_stop s) <> [] \/ closed (p_stop s) = true)))).
Proof.
  intros Hrun.
  pose proof (pipe_reachable_inv n acts s Hrun) as Hinv.
  destruct Hinv as (Hcap & Hfifo & Heof & Hpanic).
  split; [exact Hfifo |].
  split.
  { intros Hpc. destruct (Heof Hpc) as [Hnil _].
    rewrite Hfifo, Hpc, Hnil. cbn. rewrite app_nil_r. reflexivity. }
  split; [intros e; apply pipe_step_send |].
  split.
  { intros acts' s' Hn Hopen Hstopped Hf Hrun'.
    destruct (pipe_run_variant acts' s s' Hf Hrun') as (Hv & Hs & Hc & Hp).
    split; [exact Hv |]. split; [exact Hs |].
    rewrite <- Hs. apply (pipe_progress n); auto.
    - apply (pipe_reachable_inv n (acts ++ acts')). rewrite run_app, Hrun. exact Hrun'.
    - congruence. }
  split.
  { intros Hpc Hnil Hcl. eexists. split; [apply pipe_step_eof; assumption | reflexivity]. }
  split.
  { intros Hpc Hne. destruct (buf (p_stop s)) as [| b rest] eqn:E; [contradiction |].
    eexists. split; [apply (pipe_step_stop s b rest); assumption | reflexivity]. }
  intros a s' why. apply pipe_step_returns.
Qed.

Lemma Pipe_Connect_forwards_witness :
  run pipe_step
    [PProduce (NoteOn 0 60 100); PProduce (NoteOff 0 60 0); PRecv; PSend;
     PProduce (NoteOn 0 62 90); PRecv; PSend; PConsume; PRecv]
    (pipe_init 2)
  = Some (mkPipeSt (Chan 2 [] false) (Chan 2 [NoteOff 0 60 0] false) (make 1)
            (PForward (NoteOn 0 62 90))
            [NoteOn 0 60 100; NoteOff 0 60 0; NoteOn 0 62 90] [NoteOn 0 60 100]) /\
  [NoteOn 0 60 100; NoteOff 0 60 0; NoteOn 0 62 90]
  = [NoteOn 0 60 100] ++ [NoteOff 0 60 0] ++ in_flight (PForward (NoteOn 0 62 90)) ++ [].
Proof.
  split; [reflexivity |].
  apply (proj1 (Pipe_Connect_forwards 2
                  [PProduce (NoteOn 0 60 100); PProduce (NoteOff 0 60 0); PRecv; PSend;
                   PProduce (NoteOn 0 62 90); PRecv; PSend; PConsume; PRecv]
                  (mkPipeSt (Chan 2 [] false) (Chan 2 [NoteOff 0 60 0] false) (make 1)
                     (PForward (NoteOn 0 62 90))
                     [NoteOn 0 60 100; NoteOff 0 60 0; NoteOn 0 62 90] [NoteOn 0 60 100])
                  eq_refl)).
Defined.

(** ** Router.Connect *)

Lemma taken_by_app (j : nat) (l1 l2 : list (nat * Event)) :
  taken_by j (l1 ++ l2) = taken_by j l1 ++ taken_by j l2.
Proof. apply omap_app. Qed.

Lemma passed_app (j : nat) (l1 l2 : list (Event * nat)) :
  passed j (l1 ++ l2) = passed j l1 ++ passed j l2.
Proof. apply omap_app. Qed.

Lemma passed_single (j i : nat) (e : Event) :
  passed j [(e, i)] = if Nat.ltb j i then [e] else [].
Proof.
  unfold passed. cbn [omap list_omap fst snd]. destruct (Nat.ltb j i); reflexivity.
Qed.

Lemma taken_by_single (j i : nat) (e : Event) :
  taken_by j [(i, e)] = if Nat.eqb i j then [e] else [].
Proof.
  unfold taken_by. cbn [omap list_omap fst snd]. destruct (Nat.eqb i j); reflexivity.
Qed.

(** A goroutine that moves from destination [i] to the next one has
    written destination [i], and no other. *)
Lemma passed_insert (j k i : nat) (e : Event) (tasks : list (Event * nat)) :
  tasks !! k = Some (e, i) ->
  passed j (<[k := (e, S i)]> tasks)
  ≡ₚ (if Nat.eqb i j then [e] else []) ++ passed j tasks.
Proof.
  intros Hk.
  assert (Hlt : (k < length tasks)%nat) by (eapply lookup_lt_Some; eauto).
  rewrite (insert_take_drop tasks k (e, S i) Hlt).
  rewrite <- (take_drop_middle tasks k (e, i) Hk) at 3.
  rewrite !passed_app.
  change ((e, S i) :: drop (S k) tasks) with ([(e, S i)] ++ drop (S k) tasks).
  change ((e, i) :: drop (S k) tasks) with ([(e, i)] ++ drop (S k) tasks).
  rewrite !passed_app, !passed_single.
  destruct (Nat.eqb_spec i j) as [-> | Hne].
  - rewrite (proj2 (Nat.ltb_lt j (S j))) by lia.
    rewrite (proj2 (Nat.ltb_ge j j)) by lia. cbn.
    rewrite Permutation_middle. reflexivity.
  - destruct (Nat.ltb_spec j i).
    + rewrite (proj2 (Nat.ltb_lt j (S i))) by lia. reflexivity.
    + rewrite (proj2 (Nat.ltb_ge j (S i))) by lia. reflexivity.
Qed.

(** A channel that is replaced changes what waits at its own
    destination only. *)
Lemma waiting_insert (j i : nat) (d : chan Event) (dests : list (chan Event)) :
  (i < length dests)%nat ->
  waiting j (<[i := d]> dests) = if Nat.eqb i j then buf d else waiting j dests.
Proof.
  intros Hlt. unfold waiting. destruct (Nat.eqb_spec i j) as [-> | Hne].
  - rewrite list_lookup_insert_eq by assumption. reflexivity.
  - rewrite list_lookup_insert_ne by assumption. reflexivity.
Qed.

Lemma waiting_lookup (j : nat) (d : chan Event) (dests : list (chan Event)) :
  dests !! j = Some d -> waiting j dests = buf d.
Proof.
  intros H. unfold waiting. rewrite H. reflexivity.
Qed.

Lemma pending_cons (N : nat) (x : Event * nat) (tasks : list (Event * nat)) :
  pending N (x :: tasks) = (N - snd x + pending N tasks)%nat.
Proof. reflexivity. Qed.

Lemma pending_zero (N : nat) (tasks : list (Event * nat)) :
  Forall (fun x : Event * nat => (snd x <= N)%nat) tasks ->
  pending N tasks = 0%nat ->
  Forall (fun x : Event * nat => snd x = N) tasks.
Proof.
  induction 1 as [| x tasks Hx _ IH]; [constructor |].
  rewrite pending_cons. intros H. constructor.
  - cbn beta in Hx. lia.
  - apply IH. lia.
Qed.

Lemma pending_pos (N m : nat) (tasks : list (Event * nat)) :
  pending N tasks = S m ->
  exists k e i, tasks !! k = Some (e, i) /\ (i < N)%nat.
Proof.
  induction tasks as [| [e i] tasks IH]; [discriminate |].
  rewrite pending_cons. cbn [snd]. intros H.
  destruct (Nat.ltb_spec i N) as [Hlt | Hge].
  - exists 0%nat, e, i. auto.
  - destruct IH as (k & e' & i' & Hk & Hi); [lia |].
    exists (S k), e', i'. auto.
Qed.

Lemma pending_insert (N k i : nat) (e : Event) (tasks : list (Event * nat)) :
  tasks !! k = Some (e, i) -> (i < N)%nat ->
  S (pending N (<[k := (e, S i)]> tasks)) = pending N tasks.
Proof.
  revert k. induction tasks as [| x tasks IH]; intros [| k] Hk Hi;
    try discriminate.
  - injection Hk as ->.
    change (<[0%nat := (e, S i)]> ((e, i) :: tasks)) with ((e, S i) :: tasks).
    rewrite !pending_cons. cbn [snd]. lia.
  - change (<[S k := (e, S i)]> (x :: tasks)) with (x :: <[k := (e, S i)]> tasks).
    rewrite !pending_cons. cbn in Hk. rewrite <- (IH k Hk Hi). lia.
Qed.

Lemma passed_ended (N j : nat) (tasks : list (Event * nat)) :
  Forall (fun x : Event * nat => snd x = N) tasks -> (j < N)%nat ->
  passed j tasks = map fst tasks.
Proof.
  intros H Hj. induction H as [| [e i] tasks Hx _ IH]; [reflexivity |].
  change ((e, i) :: tasks) with ([(e, i)] ++ tasks).
  rewrite passed_app, passed_single, IH. cbn in Hx. subst i.
  rewrite (proj2 (Nat.ltb_lt j N) Hj). reflexivity.
Qed.

Lemma map_fst_insert (k i : nat) (e : Event) (tasks : list (Event * nat)) :
  tasks !! k = Some (e, i) ->
  map fst (<[k := (e, S i)]> tasks) = map fst tasks.
Proof.
  revert k. induction tasks as [| x tasks IH]; intros [| k] Hk;
    try discriminate.
  - injection Hk as ->. reflexivity.
  - change (<[S k := (e, S i)]> (x :: tasks)) with (x :: <[k := (e, S i)]> tasks).
    cbn [map]. cbn in Hk. rewrite (IH k Hk). reflexivity.
Qed.

Lemma buffered_cons (d : chan Event) (dests : list (chan Event)) :
  buffered (d :: dests) = (length (buf d) + buffered dests)%nat.
Proof. reflexivity. Qed.

Lemma buffered_insert (i : nat) (d d' : chan Event) (dests : list (chan Event)) :
  dests !! i = Some d ->
  (buffered (<[i := d']> dests) + length (buf d)
   = buffered dests + length (buf d'))%nat.
Proof.
  revert i. induction dests as [| x dests IH]; intros [| i] Hd; try discriminate.
  - injection Hd as ->.
    change (<[0%nat := d']> (d :: dests)) with (d' :: dests).
    rewrite !buffered_cons. lia.
  - change (<[S i := d']> (x :: dests)) with (x :: <[i := d']> dests).
    rewrite !buffered_cons. cbn in Hd. specialize (IH i Hd). lia.
Qed.

Lemma buffered_zero (j : nat) (dests : list (chan Event)) :
  buffered dests = 0%nat -> waiting j dests = [].
Proof.
  revert j. induction dests as [| x dests IH]; intros j; [reflexivity |].
  rewrite buffered_cons. intros H.
  destruct j as [| j].
  - unfold waiting. cbn. destruct (buf x); [reflexivity | cbn in H; lia].
  - apply (IH j). lia.
Qed.

Lemma buffered_pos (m : nat) (dests : list (chan Event)) :
  buffered dests = S m ->
  exists j d x rest, dests !! j = Some d /\ buf d = x :: rest.
Proof.
  induction dests as [| d dests IH]; [discriminate |].
  rewrite buffered_cons. intros H.
  destruct (buf d) as [| x rest] eqn:E.
  - destruct IH as (j & d' & x & rest & Hd & Hb); [cbn in H; lia |].
    exists (S j), d', x, rest. auto.
  - exists 0%nat, d, x, rest. auto.
Qed.

Lemma router_init_inv (n N : nat) : router_inv n N (router_init n N).
Proof.
  unfold router_inv, router_init, arrived, waiting;
    cbn [r_dests r_tasks r_taken r_received r_sent r_source].
  split; [apply length_replicate |].
  split; [apply Forall_replicate; reflexivity |].
  split; [constructor |].
  split; [reflexivity |].
  split; [reflexivity |].
  intros j. cbn. destruct (replicate N (make n) !! j) as [d |] eqn:E; [| reflexivity].
  apply lookup_replicate in E as [-> _]. reflexivity.
Qed.

Lemma Forall_insert_cap (n i : nat) (d : chan Event) (dests : list (chan Event)) :
  Forall (fun d => cap d = n) dests -> cap d = n ->
  Forall (fun d => cap d = n) (<[i := d]> dests).
Proof.
  intros H Hd. apply Forall_insert; assumption.
Qed.

Lemma router_step_inv (n N : nat) (a : RouterAct) (s s' : RouterSt) :
  router_inv n N s -> router_step a s = Some s' -> router_inv n N s'.
Proof.
  destruct s as [source dests stop main tasks sent received taken crashed].
  unfold router_inv, router_step, arrived;
    cbn [r_dests r_tasks r_taken r_received r_sent r_source].
  intros (Hlen & Hcap & Hidx & Hrec & Hsent & Hperm) H.
  destruct crashed; [discriminate |].
  destruct a; inv_step H; chan_inv;
    cbn [r_dests r_tasks r_taken r_received r_sent r_source buf push].
  all: try (repeat split; assumption).
  all: repeat match goal with
              | Hd : ?ds !! _ = Some ?d, Hc : Forall _ ?ds |- _ =>
                  lazymatch type of d with
                  | chan Event =>
                      pose proof (Forall_lookup_1 _ _ _ _ Hc Hd);
                      pose proof (lookup_lt_Some _ _ _ Hd);
                      pose proof (waiting_lookup _ _ _ Hd); clear Hd
                  end
              end.
  all: split; [rewrite ?length_insert; reflexivity |].
  all: split; [try assumption; apply Forall_insert_cap; cbn; assumption |].
  - (* RRecv *)
    split; [apply Forall_app; split; [assumption |]; repeat constructor; cbn; lia |].
    split; [rewrite map_app; reflexivity |].
    split.
    + match goal with E : buf source = _ |- _ => rewrite E end.
      change (x :: x0) with ([x] ++ x0). apply app_assoc.
    + intros j. rewrite passed_app, passed_single. cbn. rewrite app_nil_r. apply Hperm.
  - (* RTask *)
    split; [apply Forall_insert; [assumption |]; cbn; lia |].
    split; [symmetry; apply map_fst_insert; assumption |].
    split; [reflexivity |].
    intros j.
    match goal with
    | Hk : tasks !! _ = Some _ |- _ => rewrite (passed_insert j _ _ _ _ Hk)
    end.
    rewrite waiting_insert by assumption. cbn [buf push].
    specialize (Hperm j).
    destruct (Nat.eqb_spec n0 j) as [-> | Hne].
    + match goal with E : waiting j dests = _ |- _ => rewrite E in Hperm end.
      rewrite app_assoc, <- Permutation_cons_append. cbn [app].
      rewrite Hperm. reflexivity.
    + exact Hperm.
  - (* RProduce *)
    split; [assumption |]. split; [reflexivity |].
    split; [rewrite app_assoc; reflexivity | assumption].
  - (* RConsume *)
    split; [assumption |]. split; [reflexivity |]. split; [reflexivity |].
    intros j'. rewrite taken_by_app, taken_by_single.
    rewrite waiting_insert by assumption. cbn [buf].
    specialize (Hperm j').
    destruct (Nat.eqb_spec j j') as [-> | Hne].
    + match goal with
      | E : waiting j' dests = _, E' : buf _ = _ |- _ =>
          rewrite E, E' in Hperm
      end.
      rewrite <- app_assoc. exact Hperm.
    + rewrite app_nil_r. exact Hperm.
  - (* RCloseDest *)
    split; [assumption |]. split; [reflexivity |]. split; [reflexivity |].
    intros j'. rewrite waiting_insert by assumption. cbn [buf].
    specialize (Hperm j').
    destruct (Nat.eqb_spec j j') as [-> | Hne]; [| exact Hperm].
    match goal with E : waiting j' dests = _ |- _ => rewrite E in Hperm end.
    exact Hperm.
Qed.

Lemma router_reachable_inv (n N : nat) (acts : list RouterAct) (s : RouterSt) :
  run router_step acts (router_init n N) = Some s -> router_inv n N s.
Proof.
  apply (run_invariant router_step (router_inv n N) (router_step_inv n N)),
    router_init_inv.
Qed.

(** What a receive of the loop does. *)
Lemma router_step_recv (s s' : RouterSt) :
  router_step RRecv s = Some s' ->
  (exists e,
      buf (r_source s) = e :: buf (r_source s') /\
      r_tasks s' = r_tasks s ++ [(e, 0%nat)] /\
      r_received s' = r_received s ++ [e] /\
      r_main s' = None) \/
  (buf (r_source s) = [] /\ closed (r_source s) = true /\
   r_main s' = Some SourceClosed /\
   r_tasks s' = r_tasks s /\ r_received s' = r_received s).
Proof.
  intros H. destruct s as [source dests stop main tasks sent received taken crashed].
  unfold router_step in H. inv_step H; chan_inv; cbn in *; try discriminate.
  - left. eexists. repeat split; eauto.
  - right. repeat split; auto.
Qed.

(** What a step of a goroutine does. *)
Lemma router_step_task (k : nat) (s s' : RouterSt) :
  router_step (RTask k) s = Some s' ->
  exists e i d,
    r_tasks s !! k = Some (e, i) /\ r_dests s !! i = Some d /\
    ((closed d = false /\ has_room d = true /\
      r_tasks s' = <[k := (e, S i)]> (r_tasks s) /\
      r_dests s' = <[i := push d e]> (r_dests s) /\
      r_crashed s' = false) \/
     (closed d = true /\ r_crashed s' = true /\
      r_tasks s' = r_tasks s /\ r_dests s' = r_dests s)).
Proof.
  intros H. destruct s as [source dests stop main tasks sent received taken crashed].
  unfold router_step in H. inv_step H; chan_inv;
    cbn [r_tasks r_dests r_crashed] in *; try discriminate.
  - do 3 eexists. split; [eassumption |]. split; [eassumption |].
    left. repeat split; auto.
  - do 3 eexists. split; [eassumption |]. split; [eassumption |].
    right. repeat split; auto.
Qed.

(** A step of a goroutine or of a reader of a destination uses up the
    bound, receives nothing from the source and closes nothing; while
    the destinations are open no goroutine panics. *)
Lemma router_step_variant (a : RouterAct) (s s' : RouterSt) :
  router_delivering a = true -> router_step a s = Some s' ->
  (S (router_variant s') <= router_variant s)%nat /\
  r_received s' = r_received s /\ r_sent s' = r_sent s /\
  length (r_dests s') = length (r_dests s) /\
  (Forall (fun d => closed d = false) (r_dests s) ->
   Forall (fun d => closed d = false) (r_dests s') /\ r_crashed s' = false).
Proof.
  destruct s as [source dests stop main tasks sent received taken crashed].
  unfold router_step, router_variant;
    cbn [r_dests r_tasks r_taken r_received r_sent r_source r_crashed].
  intros Hf H.
  destruct crashed; [discriminate |].
  destruct a; try discriminate Hf; inv_step H; chan_inv;
    cbn [r_dests r_tasks r_taken r_received r_sent r_source r_crashed].
  - (* RTask, sent *)
    match goal with
    | Hk : tasks !! _ = Some _, Hd : dests !! _ = Some _ |- _ =>
        pose proof (pending_insert (length dests) _ _ _ _ Hk (lookup_lt_Some _ _ _ Hd));
        pose proof (buffered_insert _ _ (push c e) _ Hd) as Hb
    end.
    cbn [push buf] in Hb. rewrite length_app in Hb. cbn [length] in Hb.
    rewrite length_insert.
    repeat split; try lia.
    + apply Forall_insert; [assumption |]. cbn. assumption.
  - (* RTask, panic *)
    repeat split; try lia.
    + assumption.
    + match goal with
      | Hd : dests !! _ = Some _, Hall : Forall _ dests |- _ =>
          pose proof (Forall_lookup_1 _ _ _ _ Hall Hd) as Hopen
      end.
      cbn beta in Hopen. congruence.
  - (* RConsume *)
    match goal with
    | Hd : dests !! _ = Some ?d |- _ =>
        pose proof (buffered_insert _ _ (Chan (cap d) x0 (closed d)) _ Hd) as Hb
    end.
    cbn [buf] in Hb.
    match goal with E : buf _ = _ :: _ |- _ => rewrite E in Hb end.
    cbn [length] in Hb. rewrite length_insert.
    repeat split; try lia.
    apply Forall_insert; [assumption |]. cbn.
    match goal with
    | Hd : dests !! _ = Some _, Hall : Forall _ dests |- _ =>
        exact (Forall_lookup_1 _ _ _ _ Hall Hd)
    end.
Qed.

Lemma router_run_variant (acts : list RouterAct) (s s' : RouterSt) :
  forallb router_delivering acts = true -> run router_step acts s = Some s' ->
  r_crashed s = false ->
  Forall (fun d => closed d = false) (r_dests s) ->
  (length acts + router_variant s' <= router_variant s)%nat /\
  r_received s' = r_received s /\ r_sent s' = r_sent s /\
  Forall (fun d => closed d = false) (r_dests s') /\ r_crashed s' = false.
Proof.
  revert s. induction acts as [| a acts IH]; intros s Hf Hrun Hc Hopen; cbn in Hrun.
  - injection Hrun as <-. cbn. repeat split; auto.
  - cbn in Hf. apply andb_true_iff in Hf as [Ha Hf].
    destruct (router_step a s) as [s1 |] eqn:E; [| discriminate].
    destruct (router_step_variant a s s1 Ha E) as (Hv & Hr & Hs & _ & Ho).
    destruct (Ho Hopen) as [Hopen1 Hc1].
    destruct (IH s1 Hf Hrun Hc1 Hopen1) as (Hv' & Hr' & Hs' & Ho' & Hc').
    cbn [length]. repeat split; try lia; try congruence; auto.
Qed.

(** While the process lives and the destinations are open, a goroutine
    or a reader of a destination can step, unless the reader of every
    destination has taken every event the loop received. *)
Lemma router_progress (n N : nat) (s : RouterSt) :
  router_inv n N s -> (0 < n)%nat -> r_crashed s = false ->
  Forall (fun d => closed d = false) (r_dests s) ->
  (forall j, (j < N)%nat -> taken_by j (r_taken s) ≡ₚ r_received s) \/
  exists a s', router_delivering a = true /\ router_step a s = Some s'.
Proof.
  intros (Hlen & Hcap & Hidx & Hrec & Hsent & Hperm) Hn Hc Hopen.
  destruct (buffered (r_dests s)) as [| m] eqn:Eb.
  - destruct (pending N (r_tasks s)) as [| m] eqn:Ep.
    + left. intros j Hj.
      pose proof (pending_zero N _ Hidx Ep) as Hend.
      specialize (Hperm j). unfold arrived in Hperm.
      rewrite (buffered_zero j _ Eb), app_nil_r in Hperm.
      rewrite Hperm, Hrec. rewrite (passed_ended N j _ Hend Hj). reflexivity.
    + right. destruct (pending_pos N m _ Ep) as (k & e & i & Hk & Hi).
      destruct (lookup_lt_is_Some_2 (r_dests s) i) as [d Hd]; [lia |].
      pose proof (Forall_lookup_1 _ _ _ _ Hopen Hd) as Hdo.
      pose proof (Forall_lookup_1 _ _ _ _ Hcap Hd) as Hdc.
      pose proof (buffered_zero i _ Eb) as Hw.
      rewrite (waiting_lookup _ _ _ Hd) in Hw.
      cbn beta in Hdo, Hdc.
      destruct s as [source dests stop main tasks sent received taken crashed].
      cbn [r_dests r_tasks r_crashed] in *. subst crashed.
      exists (RTask k). eexists. split; [reflexivity |].
      unfold router_step. rewrite Hk, Hd. unfold send, has_room.
      rewrite Hdo, Hw, Hdc. cbn [length].
      destruct (Nat.ltb_spec 0 n); [reflexivity | lia].
  - right. destruct (buffered_pos m _ Eb) as (j & d & x & rest & Hd & Hb).
    destruct s as [source dests stop main tasks sent received taken crashed].
    cbn [r_dests r_tasks r_crashed] in *. subst crashed.
    exists (RConsume j). eexists. split; [reflexivity |].
    unfold router_step. rewrite Hd. unfold recv. rewrite Hb. reflexivity.
Qed.

(** C6: in every state a router reaches: a receive of the loop that
    yields an event takes it out of the source channel and spawns one
    goroutine for that event, at its first destination, and the loop
    goes on; the loop returns from a receive only on a closed and empty
    source.  A step of a goroutine appends its event to the channel of
    the destination it stands at and moves it to the next one, so that
    it writes the destinations in sequence; it panics when that channel
    is closed.  The events the loop has received are the events of the
    goroutines, one goroutine each, and with those that wait in the
    source channel they are the events sent into the source.  What has
    reached a destination (taken by its reader, or waiting in its
    channel) is, up to order, the events of the goroutines that have
    written it; once the goroutines have ended that is every event
    received.  While the process lives and the [N] destinations are
    open, every schedule of the goroutines and of the readers of the
    destinations is shorter than the bound [router_variant], receives
    nothing new, and where it can go no further the reader of each of
    the [N] destinations has taken a copy of every event received. *)
Theorem Router_Connect_broadcasts (n N : nat) (acts : list RouterAct) (s : RouterSt) :
  run router_step acts (router_init n N) = Some s ->
  (forall s',
      router_step RRecv s = Some s' ->
      (exists e,
          buf (r_source s) = e :: buf (r_source s') /\
          r_tasks s' = r_tasks s ++ [(e, 0%nat)] /\
          r_received s' = r_received s ++ [e] /\
          r_main s' = None) \/
      (buf (r_source s) = [] /\ closed (r_source s) = true /\
       r_main s' = Some SourceClosed /\
       r_tasks s' = r_tasks s /\ r_received s' = r_received s)) /\
  (forall k s',
      router_step (RTask k) s = Some s' ->
      exists e i d,
        r_tasks s !! k = Some (e, i) /\ r_dests s !! i = Some d /\
        ((closed d = false /\ has_room d = true /\
          r_tasks s' = <[k := (e, S i)]> (r_tasks s) /\
          r_dests s' = <[i := push d e]> (r_dests s) /\
          r_crashed s' = false) \/
         (closed d = true /\ r_crashed s' = true /\
          r_tasks s' = r_tasks s /\ r_dests s' = r_dests s))) /\
  r_received s = map fst (r_tasks s) /\
  r_sent s = r_received s ++ buf (r_source s) /\
  (forall j, arrived j s ≡ₚ passed j (r_tasks s)) /\
  (Forall (fun x : Event * nat => snd x = N) (r_tasks s) ->
   forall j, (j < N)%nat -> arrived j s ≡ₚ r_received s) /\
  (forall acts' s',
      (0 < n)%nat -> r_crashed s = false ->
      Forall (fun d => closed d = false) (r_dests s) ->
      forallb router_delivering acts' = true -> run router_step acts' s = Some s' ->
      (length acts' + router_variant s' <= router_variant s)%nat /\
      r_received s' = r_received s /\
      ((forall j, (j < N)%nat -> taken_by j (r_taken s') ≡ₚ r_received s) \/
       exists a s'', router_delivering a = true /\ router_step a s' = Some s'')).
Proof.
  intros Hrun.
  destruct (router_reachable_inv n N acts s Hrun)
    as (Hlen & Hcap & Hidx & Hrec & Hsent & Hperm).
  split; [intros s'; apply router_step_recv |].
  split; [intros k s'; apply router_step_task |].
  split; [exact Hrec |].
  split; [exact Hsent |].
  split; [exact Hperm |].
  split.
  { intros Hend j Hj. rewrite Hperm, Hrec.
    rewrite (passed_ended N j _ Hend Hj). reflexivity. }
  intros acts' s' Hn Hc Hopen Hf Hrun'.
  destruct (router_run_variant acts' s s' Hf Hrun' Hc Hopen)
    as (Hv & Hr & _ & Hopen' & Hc').
  split; [exact Hv |]. split; [exact Hr |].
  rewrite <- Hr. apply (router_progress n N); auto.
  apply (router_reachable_inv n N (acts ++ acts')). rewrite run_app, Hrun. exact Hrun'.
Qed.

Lemma Router_Connect_broadcasts_witness :
  run router_step
    [RProduce (NoteOn 0 60 100); RRecv; RProduce (NoteOff 0 60 0); RRecv;
     RTask 1; RTask 0; RTask 0; RTask 1; RConsume 0]
    (router_init 2 2)
  = Some (mkRouterSt (make 2)
            [Chan 2 [NoteOn 0 60 100] false;
             Chan 2 [NoteOn 0 60 100; NoteOff 0 60 0] false]
            (make 1) None
            [(NoteOn 0 60 100, 2%nat); (NoteOff 0 60 0, 2%nat)]
            [NoteOn 0 60 100; NoteOff 0 60 0]
            [NoteOn 0 60 100; NoteOff 0 60 0]
            [(0%nat, NoteOff 0 60 0)] false) /\
  taken_by 0 [(0%nat, NoteOff 0 60 0)] ++ [NoteOn 0 60 100]
  ≡ₚ [NoteOn 0 60 100; NoteOff 0 60 0].
Proof.
  split; [reflexivity |].
  refine (proj1 (proj2 (proj2 (proj2 (proj2 (proj2
            (Router_Connect_broadcasts 2 2
               [RProduce (NoteOn 0 60 100); RRecv; RProduce (NoteOff 0 60 0); RRecv;
                RTask 1; RTask 0; RTask 0; RTask 1; RConsume 0]
               (mkRouterSt (make 2)
                  [Chan 2 [NoteOn 0 60 100] false;
                   Chan 2 [NoteOn 0 60 100; NoteOff 0 60 0] false]
                  (make 1) None
                  [(NoteOn 0 60 100, 2%nat); (NoteOff 0 60 0, 2%nat)]
                  [NoteOn 0 60 100; NoteOff 0 60 0]
                  [NoteOn 0 60 100; NoteOff 0 60 0]
                  [(0%nat, NoteOff 0 60 0)] false)
               eq_refl)))))) _ 0%nat _).
  - repeat constructor.
  - lia.
Defined.

(** ** Funnel: the stop token *)

Lemma count_pc_insert (p : FunnelPc -> bool) (i : nat) (t t' : FunnelPc)
    (tasks : list FunnelPc) :
  tasks !! i = Some t ->
  (count_pc p (<[i := t']> tasks) + (if p t then 1 else 0)
   = count_pc p tasks + (if p t' then 1 else 0))%nat.
Proof.
  revert i. induction tasks as [| x tasks IH]; intros [| i] Hi; try discriminate.
  - injection Hi as ->.
    change (<[0%nat := t']> (t :: tasks)) with (t' :: tasks). cbn [count_pc]. lia.
  - change (<[S i := t']> (x :: tasks)) with (x :: <[i := t']> tasks).
    cbn [count_pc]. cbn in Hi. specialize (IH i Hi). lia.
Qed.

Lemma count_pc_replicate_select (p : FunnelPc -> bool) (N : nat) :
  p FSelect = false -> count_pc p (replicate N FSelect) = 0%nat.
Proof.
  intros H. induction N as [| N IH]; cbn; [reflexivity |]. rewrite H, IH. reflexivity.
Qed.

Lemma funnel_init_inv (n N : nat) : funnel_inv N (funnel_init n N).
Proof.
  unfold funnel_inv, funnel_init; cbn.
  rewrite length_replicate, !count_pc_replicate_select by reflexivity.
  repeat split; reflexivity.
Qed.

Lemma funnel_step_inv (N : nat) (a : FunnelAct) (s s' : FunnelSt) :
  funnel_inv N s -> funnel_step a s = Some s' -> funnel_inv N s'.
Proof.
  destruct s as [sources dest stop tasks signalled taken resent crashed].
  unfold funnel_inv, funnel_step;
    cbn [f_tasks f_stop f_signalled f_taken f_resent].
  intros (Hlen & Hcap & Hopen & Htok & Htaken & Hexit) H.
  destruct crashed; [discriminate |].
  destruct a; inv_step H; chan_inv;
    cbn [f_tasks f_stop f_signalled f_taken f_resent cap buf closed push] in *;
    rewrite ?length_insert, ?length_app; cbn [length];
    try (repeat split; (assumption || lia));
    try congruence.
  all: repeat match goal with
              | Hk : ?ts !! ?i = Some ?t |- context [<[?i := ?t']> ?ts] =>
                  pose proof (count_pc_insert is_resend i t t' ts Hk);
                  pose proof (count_pc_insert is_exited i t t' ts Hk);
                  clear Hk
              end; cbn [is_resend is_exited] in *.
  all: try match goal with
           | E : buf _ = _ :: _ |- _ => rewrite E in *; cbn [length] in *
           end.
  all: repeat split; try assumption; try lia.
Qed.

Lemma funnel_reachable_inv (n N : nat) (acts : list FunnelAct) (s : FunnelSt) :
  run funnel_step acts (funnel_init n N) = Some s -> funnel_inv N s.
Proof.
  apply (run_invariant funnel_step (funnel_inv N) (funnel_step_inv N)),
    funnel_init_inv.
Qed.

Lemma funnel_step_take (s : FunnelSt) (i : nat) (b : bool) (rest : list bool) :
  f_crashed s = false -> f_tasks s !! i = Some FSelect -> buf (f_stop s) = b :: rest ->
  funnel_step (FTakeStop i) s
  = Some (mkFunnelSt (f_sources s) (f_dest s)
            (Chan (cap (f_stop s)) rest (closed (f_stop s)))
            (<[i := FResend]> (f_tasks s))
            (f_signalled s) (S (f_taken s)) (f_resent s) false).
Proof.
  destruct s as [sources dest stop tasks signalled taken resent crashed]; cbn.
  intros -> Hi E. rewrite Hi. unfold recv. rewrite E. reflexivity.
Qed.

Lemma funnel_step_resend (s : FunnelSt) (i : nat) :
  f_crashed s = false -> f_tasks s !! i = Some FResend ->
  closed (f_stop s) = false -> has_room (f_stop s) = true ->
  funnel_step (FResendStop i) s
  = Some (mkFunnelSt (f_sources s) (f_dest s) (push (f_stop s) true)
            (<[i := FExited]> (f_tasks s))
            (f_signalled s) (f_taken s) (S (f_resent s)) false).
Proof.
  destruct s as [sources dest stop tasks signalled taken resent crashed]; cbn.
  intros -> Hi Hopen Hroom. rewrite Hi. unfold send. rewrite Hopen, Hroom. reflexivity.
Qed.

(** One token in the slot ends, one after the other, all the goroutines
    that wait at their [select], and is in the slot again at the end. *)
Lemma funnel_pass_token (todo : list FunnelPc) :
  forall (done : list FunnelPc) (s : FunnelSt) (b : bool),
    f_tasks s = done ++ todo ->
    Forall (fun t => idle t = true) todo ->
    buf (f_stop s) = [b] -> cap (f_stop s) = 1%nat -> closed (f_stop s) = false ->
    f_crashed s = false ->
    exists acts s',
      run funnel_step acts s = Some s' /\
      forallb funnel_stopping acts = true /\
      f_tasks s' = done ++ replicate (length todo) FExited /\
      length (buf (f_stop s')) = 1%nat /\
      f_signalled s' = f_signalled s /\ f_crashed s' = false.
Proof.
  induction todo as [| t todo IH]; intros done s b Htasks Hidle Hbuf Hcap Hopen Hc.
  - exists [], s. cbn. rewrite Hbuf, <- Htasks. repeat split; auto.
  - apply Forall_cons in Hidle as [Ht Hidle].
    destruct t; try discriminate Ht.
    + (* the goroutine is at its select *)
      assert (Hi : f_tasks s !! length done = Some FSelect).
      { rewrite Htasks. apply list_lookup_middle. reflexivity. }
      pose proof (funnel_step_take s (length done) b [] Hc Hi Hbuf) as Htake.
      set (s1 := mkFunnelSt _ _ _ _ _ _ _ _) in Htake.
      assert (Hi1 : f_tasks s1 !! length done = Some FResend).
      { unfold s1; cbn [f_tasks]. apply list_lookup_insert_eq.
        eapply lookup_lt_Some; eauto. }
      pose proof (funnel_step_resend s1 (length done) eq_refl Hi1 Hopen) as Hre.
      set (s2 := mkFunnelSt _ _ _ _ _ _ _ _) in Hre.
      destruct (IH (done ++ [FExited]) s2 true) as
        (acts & s3 & Hrun & Hf & Htasks3 & Hlen3 & Hsig3 & Hc3); auto.
      * unfold s2, s1; cbn [f_tasks]. rewrite list_insert_insert_eq, Htasks.
        rewrite insert_app_r_alt by lia. rewrite Nat.sub_diag.
        rewrite <- app_assoc. reflexivity.
      * exists (FTakeStop (length done) :: FResendStop (length done) :: acts), s3.
        split.
        { cbn [run]. rewrite Htake, Hre; [exact Hrun |].
          unfold s1, has_room; cbn. rewrite Hcap. reflexivity. }
        repeat split; auto.
        rewrite Htasks3, <- app_assoc. reflexivity.
    + (* the goroutine has returned already *)
      destruct (IH (done ++ [FExited]) s b) as
        (acts & s3 & Hrun & Hf & Htasks3 & Hlen3 & Hsig3 & Hc3); auto.
      * rewrite Htasks, <- app_assoc. reflexivity.
      * exists acts, s3. repeat split; auto.
        rewrite Htasks3, <- app_assoc. reflexivity.
Qed.

(** [Funnel.Stop] touches the stop channel in its first statement
    only. *)
Lemma close_all_stop {D : DeviceImpl} (ds : list Device) (w : FunnelW) :
  fw_stop (snd (close_all ds w)) = fw_stop w.
Proof.
  revert w. induction ds as [| d ds IH]; intros w; cbn; [reflexivity |].
  unfold bind, lift_world.
  destruct (Device_Close d (fw_world w)) as [[[e |] | |] w1]; cbn; try reflexivity.
  rewrite IH. reflexivity.
Qed.

Lemma Funnel_Stop_one_token {D : DeviceImpl} (f : Funnel) (w : FunnelW) :
  match send (fw_stop w) true with
  | Ret c => fw_stop (snd (Funnel_Stop f w)) = Some c
  | Block => Funnel_Stop f w = (Block, w)
  | Panic => Funnel_Stop f w = (Panic, w)
  end.
Proof.
  unfold Funnel_Stop, bind, signal_stop.
  destruct (send (fw_stop w) true) as [c | |]; try reflexivity.
  unfold lift_world; cbn [fw_world fw_stop].
  destruct (Device_Close (fTo f) (fw_world w)) as [[[e |] | |] w1]; cbn; try reflexivity.
  rewrite close_all_stop. reflexivity.
Qed.

Lemma count_pc_lookup (p : FunnelPc -> bool) (i : nat) (t : FunnelPc)
    (tasks : list FunnelPc) :
  tasks !! i = Some t -> p t = true -> (1 <= count_pc p tasks)%nat.
Proof.
  revert i. induction tasks as [| x tasks IH]; intros [| i] Hi Hp; try discriminate.
  - injection Hi as ->. cbn [count_pc]. rewrite Hp. lia.
  - cbn [count_pc]. cbn in Hi. specialize (IH i Hi Hp). lia.
Qed.

Lemma count_pc_idle (tasks : list FunnelPc) :
  Forall (fun t => idle t = true) tasks -> count_pc is_resend tasks = 0%nat.
Proof.
  induction 1 as [| t tasks Ht _ IH]; [reflexivity |].
  cbn [count_pc]. rewrite IH. destruct t; try discriminate Ht; reflexivity.
Qed.

(** A goroutine changes its place in its code by its own steps only. *)
Lemma funnel_step_task (a : FunnelAct) (s s' : FunnelSt) (i : nat) (t : FunnelPc) :
  closed (f_stop s) = false ->
  funnel_step a s = Some s' ->
  f_tasks s' !! i = Some t -> f_tasks s !! i <> Some t ->
  (t = FResend ->
   a = FTakeStop i /\ f_tasks s !! i = Some FSelect /\
   exists b, buf (f_stop s) = b :: buf (f_stop s')) /\
  (t = FExited ->
   a = FResendStop i /\ f_tasks s !! i = Some FResend /\
   f_stop s' = push (f_stop s) true).
Proof.
  destruct s as [sources dest stop tasks signalled taken resent crashed].
  unfold funnel_step; cbn [f_tasks f_stop].
  intros Hopen H Hi' Hi.
  destruct crashed; [discriminate |].
  destruct a as [k | k | k | k | | k e | | k |]; inv_step H; chan_inv;
    cbn [f_tasks f_stop cap buf closed] in *; try contradiction.
  all: destruct (decide (k = i)) as [-> | Hne];
    [ rewrite list_lookup_insert_eq in Hi' by (eapply lookup_lt_Some; eauto)
    | rewrite list_lookup_insert_ne in Hi' by assumption; contradiction ].
  all: injection Hi' as <-.
  all: split; intros Ht; try discriminate Ht.
  - repeat split; auto. eexists. eassumption.
  - congruence.
  - repeat split; auto.
Qed.

(** C7: [Funnel.Stop] sends one token on the stop channel, in its first
    statement, and none after it, whatever the closing of the devices
    does.  In every state a funnel reaches: the tokens in the slot and
    those held by goroutines at their re-send are as many as [Stop]
    sent; a goroutine comes to its re-send only by taking a token from
    the slot, and returns only by sending a token on it again, so the
    goroutines that have returned are as many as the tokens sent
    again; after one [Stop], the slot is empty when a goroutine stands
    at its re-send, so the re-send does not block and leaves one token
    in the slot; and that one token ends, one after the other, all [N]
    goroutines that wait at their [select]. *)
Theorem Funnel_stop_daisy_chain {D : DeviceImpl} (n N : nat)
    (acts : list FunnelAct) (s : FunnelSt) :
  run funnel_step acts (funnel_init n N) = Some s ->
  (forall (f : Funnel) (w : FunnelW) (c : chan bool),
      fw_stop w = Some c -> closed c = false -> has_room c = true ->
      fw_stop (snd (Funnel_Stop f w)) = Some (push c true)) /\
  (forall s',
      funnel_step FSignal s = Some s' ->
      f_stop s' = push (f_stop s) true /\ f_signalled s' = S (f_signalled s)) /\
  ((length (buf (f_stop s)) + count_pc is_resend (f_tasks s) = f_signalled s)%nat /\
   (f_taken s = f_resent s + count_pc is_resend (f_tasks s))%nat /\
   count_pc is_exited (f_tasks s) = f_resent s) /\
  (forall a s' i,
      funnel_step a s = Some s' ->
      (f_tasks s' !! i = Some FResend -> f_tasks s !! i <> Some FResend ->
       a = FTakeStop i /\ f_tasks s !! i = Some FSelect /\
       exists b, buf (f_stop s) = b :: buf (f_stop s')) /\
      (f_tasks s' !! i = Some FExited -> f_tasks s !! i <> Some FExited ->
       a = FResendStop i /\ f_tasks s !! i = Some FResend /\
       f_stop s' = push (f_stop s) true)) /\
  (f_signalled s = 1%nat -> f_crashed s = false ->
   forall i, f_tasks s !! i = Some FResend ->
   exists s',
     funnel_step (FResendStop i) s = Some s' /\
     f_tasks s' !! i = Some FExited /\ buf (f_stop s') = [true]) /\
  (f_signalled s = 1%nat -> f_crashed s = false ->
   Forall (fun t => idle t = true) (f_tasks s) ->
   exists acts' s',
     run funnel_step acts' s = Some s' /\
     forallb funnel_stopping acts' = true /\
     f_tasks s' = replicate N FExited /\
     length (buf (f_stop s')) = 1%nat /\ f_signalled s' = 1%nat).
Proof.
  intros Hrun.
  destruct (funnel_reachable_inv n N acts s Hrun)
    as (Hlen & Hcap & Hopen & Htok & Htaken & Hexit).
  split.
  { intros f w c Hw Hc Hroom. pose proof (Funnel_Stop_one_token f w) as H.
    rewrite Hw in H. unfold send in H. rewrite Hc, Hroom in H. exact H. }
  split.
  { intros s' H. destruct s as [sources dest stop tasks signalled taken resent crashed].
    unfold funnel_step in H. inv_step H; chan_inv. cbn. auto. }
  split; [repeat split; try assumption; lia |].
  split.
  { intros a s' i H. split; intros Hi' Hi.
    - apply (proj1 (funnel_step_task a s s' i FResend Hopen H Hi' Hi)). reflexivity.
    - apply (proj2 (funnel_step_task a s s' i FExited Hopen H Hi' Hi)). reflexivity. }
  split.
  { intros Hone Hc i Hi.
    pose proof (count_pc_lookup is_resend i FResend _ Hi eq_refl) as Hge.
    assert (Hnil : buf (f_stop s) = []).
    { destruct (buf (f_stop s)); [reflexivity | cbn in Htok; lia]. }
    eexists. split; [apply funnel_step_resend; auto |].
    - unfold has_room. rewrite Hnil, Hcap. reflexivity.
    - cbn [f_tasks f_stop push buf]. rewrite Hnil. split; [| reflexivity].
      apply list_lookup_insert_eq. eapply lookup_lt_Some; eauto. }
  intros Hone Hc Hidle.
  pose proof (count_pc_idle _ Hidle) as Hzero.
  assert (Hbuf : exists b, buf (f_stop s) = [b]).
  { destruct (buf (f_stop s)) as [| b [| b' rest]]; cbn in Htok; try lia. eauto. }
  destruct Hbuf as [b Hbuf].
  destruct (funnel_pass_token (f_tasks s) [] s b eq_refl Hidle Hbuf Hcap Hopen Hc)
    as (acts' & s' & Hrun' & Hf & Htasks & Hlen' & Hsig & _).
  exists acts', s'. repeat split; auto.
  - rewrite Htasks, Hlen. reflexivity.
  - congruence.
Qed.

Lemma Funnel_stop_daisy_chain_witness :
  run funnel_step [FSignal; FTakeStop 1] (funnel_init 2 2) = Some token_taken /\
  ((length (buf (f_stop token_taken)) + count_pc is_resend (f_tasks token_taken)
    = f_signalled token_taken)%nat /\
   (f_taken token_taken
    = f_resent token_taken + count_pc is_resend (f_tasks token_taken))%nat /\
   count_pc is_exited (f_tasks token_taken) = f_resent token_taken).
Proof.
  split; [reflexivity |].
  exact (proj1 (proj2 (proj2
           (@Funnel_stop_daisy_chain testDevice 2 2 [FSignal; FTakeStop 1]
              token_taken eq_refl)))).
Defined.

(** * Further properties of the package *)

(** ** What [readEvent] decodes *)

Lemma nibbles_disjoint (f : Z) :
  Z.land (Z.land (Z.land f 0xFF) 0xF0) (Z.land (Z.land f 0xFF) 0x0F) = 0.
Proof.
  bits.
Qed.

Lemma nibbles_sum (f : Z) :
  Z.land (Z.land f 0xFF) 0xF0 + Z.land (Z.land f 0xFF) 0x0F = f mod 256.
Proof.
  pose proof (status_nibbles f) as Hor. pose proof (nibbles_disjoint f) as Hand.
  set (c := Z.land (Z.land f 0xFF) 0xF0) in *.
  set (ch := Z.land (Z.land f 0xFF) 0x0F) in *.
  pose proof (Z.add_lxor_2land c ch) as H1.
  pose proof (Z.sub_2lor_lxor c ch) as H2.
  change 0xFF with (Z.ones 8) in Hor. rewrite Z.land_ones in Hor by lia.
  change (2 ^ 8) with 256 in Hor. lia.
Qed.

Lemma byte_mod (x : Z) : Z.land x 0xFF = x mod 256.
Proof.
  change 0xFF with (Z.ones 8). rewrite Z.land_ones by lia. reflexivity.
Qed.

Lemma low_nibble_mod (x : Z) : Z.land x 0x0F = x mod 16.
Proof.
  change 0x0F with (Z.ones 4). rewrite Z.land_ones by lia. reflexivity.
Qed.

Lemma readEvent_decoded (a : PmAnswers) :
  let m := fst (readEvent a) in
  0 <= Channel m <= 15 /\
  0 <= Command m <= 240 /\ Command m mod 16 = 0 /\
  0 <= Data1 m <= 255 /\ 0 <= Data2 m <= 255 /\
  (0 < fst (pm_read a) ->
   Command m + Channel m = snd (pm_read a) mod 256 /\
   Channel m = snd (pm_read a) mod 16 /\
   Data1 m = (snd (pm_read a) / 2 ^ 8) mod 256 /\
   Data2 m = (snd (pm_read a) / 2 ^ 16) mod 256) /\
  (fst (pm_read a) <= 0 ->
   m = zeroMessage /\
   Channel m = 0 /\ Command m = 0 /\ Data1 m = 0 /\ Data2 m = 0).
Proof.
  unfold readEvent. destruct (pm_read a) as [eventsRead message]; cbn [fst snd].
  destruct (Z.ltb_spec 0 eventsRead) as [Hread | Hread]; cbn [fst];
    cbn [Channel Command Data1 Data2 zeroMessage].
  2: { repeat split; try lia; try reflexivity. }
  pose proof (nibbles_sum message) as Hsum.
  pose proof (low_nibble_mod (Z.land message 0xFF)) as Hch.
  rewrite !byte_mod in *. rewrite !Z.shiftr_div_pow2 by lia.
  set (c := Z.land (message mod 256) 0xF0) in *.
  set (ch := Z.land (message mod 256) 0x0F) in *.
  pose proof (Z.mod_pos_bound message 256 ltac:(lia)) as Hs.
  pose proof (Z.mod_pos_bound (message mod 256) 16 ltac:(lia)) as Hc.
  pose proof (Z.mod_pos_bound (message / 2 ^ 8) 256 ltac:(lia)).
  pose proof (Z.mod_pos_bound (message / 2 ^ 16) 256 ltac:(lia)).
  assert (Hmm : (message mod 256) mod 16 = message mod 16).
  { apply Z.mod_mod_divide. exists 16. reflexivity. }
  assert (Hc16 : c = 16 * ((message mod 256) / 16)).
  { pose proof (Z.div_mod (message mod 256) 16 ltac:(lia)). lia. }
  repeat split; try lia.
  rewrite Hc16, Z.mul_comm. apply Z.mod_mul. lia.
Qed.

(** Whatever the transport hands over, also a negative value or one
    with bits above the third byte, [readEvent] returns a channel in
    0..15, a command that is a multiple of 16 in 0..240 and data bytes
    in 0..255 (not only in 0..127); when an event was read, command and
    channel add up to the low byte of the message, and the data bytes
    are its second and third bytes: the fourth byte is ignored; when
    none was read (the transport returned 0 or a negative number),
    the message is the zero message, whatever the buffer holds. *)
Theorem readEvent_fields (a : PmAnswers) :
  let m := fst (readEvent a) in
  0 <= Channel m <= 15 /\
  0 <= Command m <= 240 /\ Command m mod 16 = 0 /\
  0 <= Data1 m <= 255 /\ 0 <= Data2 m <= 255 /\
  (0 < fst (pm_read a) ->
   Command m + Channel m = snd (pm_read a) mod 256 /\
   Channel m = snd (pm_read a) mod 16 /\
   Data1 m = (snd (pm_read a) / 2 ^ 8) mod 256 /\
   Data2 m = (snd (pm_read a) / 2 ^ 16) mod 256) /\
  (fst (pm_read a) <= 0 ->
   m = zeroMessage /\
   Channel m = 0 /\ Command m = 0 /\ Data1 m = 0 /\ Data2 m = 0).
Proof.
  exact (readEvent_decoded a).
Qed.

(** What a reader of an output port's channel can rely on, whatever
    the transport hands over: the channel of an event is in 0..15 and
    its data bytes in 0..255; a [NoteOff] has velocity 0; a [NoteOn]
    came from a frame with the note-on command (its velocity may be
    0); a [RawMessage] has none of the three commands that have a
    variant of their own; and the name of a [ControlChange] is the
    entry of its controller number in the table, or "Unknown". *)
Theorem published_event_shape {env : MidiEnv} (a : PmAnswers) :
  match classify (fst (readEvent a)) with
  | NoteOn ch key vel =>
      Command (fst (readEvent a)) = NOTE_ON /\
      0 <= ch <= 15 /\ 0 <= key <= 255 /\ 0 <= vel <= 255
  | NoteOff ch key vel =>
      Command (fst (readEvent a)) = NOTE_OFF /\
      0 <= ch <= 15 /\ 0 <= key <= 255 /\ vel = 0
  | ControlChange ch num val name =>
      Command (fst (readEvent a)) = CONTROL_CHANGE /\
      0 <= ch <= 15 /\ 0 <= num <= 255 /\ 0 <= val <= 255 /\
      name = default "Unknown"%string (ControlChangeNames !! num)
  | RawMessage m =>
      m = fst (readEvent a) /\
      Command m <> NOTE_ON /\ Command m <> NOTE_OFF /\ Command m <> CONTROL_CHANGE /\
      0 <= Channel m <= 15 /\ 0 <= Data1 m <= 255 /\ 0 <= Data2 m <= 255
  end.
Proof.
  destruct (readEvent_decoded a) as (Hch & _ & _ & H1 & H2 & _).
  set (m := fst (readEvent a)) in *. unfold classify.
  destruct (Z.eqb_spec (Command m) NOTE_ON); [auto |].
  destruct (Z.eqb_spec (Command m) NOTE_OFF); [repeat split; auto; lia |].
  destruct (Z.eqb_spec (Command m) CONTROL_CHANGE); [| repeat split; auto; lia].
  destruct (ControlChangeNames !! Data1 m) eqn:E; repeat split; auto; lia.
Qed.

Lemma readEvent_fields_witness :
  (0 < fst (pm_read (mkPmAnswers (1, None) (1, -1))) /\
   readEvent (mkPmAnswers (1, None) (1, -1)) = (mkMessage 15 240 255 255, None) /\
   Command (fst (readEvent (mkPmAnswers (1, None) (1, -1))))
   + Channel (fst (readEvent (mkPmAnswers (1, None) (1, -1))))
   = snd (pm_read (mkPmAnswers (1, None) (1, -1))) mod 256) /\
  (fst (pm_read (mkPmAnswers (1, None) (0, 0x643C90))) <= 0 /\
   fst (readEvent (mkPmAnswers (1, None) (0, 0x643C90))) = zeroMessage).
Proof.
  split.
  - assert (Hread : 0 < fst (pm_read (mkPmAnswers (1, None) (1, -1)))) by (cbn; lia).
    split; [exact Hread |]. split; [reflexivity |].
    exact (proj1 (proj1 (proj2 (proj2 (proj2 (proj2 (proj2
             (readEvent_fields (mkPmAnswers (1, None) (1, -1)))))))) Hread)).
  - assert (Hnone : fst (pm_read (mkPmAnswers (1, None) (0, 0x643C90))) <= 0)
      by (cbn; lia).
    split; [exact Hnone |].
    exact (proj1 (proj2 (proj2 (proj2 (proj2 (proj2 (proj2
             (readEvent_fields (mkPmAnswers (1, None) (0, 0x643C90)))))))) Hnone)).
Defined.

(** ** The loop of an output port *)

Lemma SystemOutPort_Run_iter_frame {env : MidiEnv} (f : Z) (w : PortW) (c : chan Event) :
  is_Some (stream (port w)) -> isOpen (port w) = true ->
  recv (stop (port w)) = Block ->
  events (port w) = Some c -> closed c = false ->
  SystemOutPort_Run_iter (mkPmAnswers (1, None) (1, f)) w
  = if has_room c
    then (Ret IterPublished,
          mkPortW (set_events (push c (classify_frame f)) (port w))
                  (effects w ++ [EventSent (classify_frame f)]))
    else (Block, w).
Proof.
  intros [h Hs] Hopen Hstop Hev Hcl.
  unfold SystemOutPort_Run_iter, bind, take_stop, get, ret, poll, SystemPort_IsOpen.
  rewrite Hstop, Hs, Hopen. cbn [negb pm_poll Z.ltb Z.compare].
  unfold classify_frame.
  change (readEvent (mkPmAnswers (1, None) (1, f)))
    with (fst (readEvent (mkPmAnswers (1, None) (1, f))), @None string).
  cbv beta iota. unfold send_event, send. rewrite Hev, Hcl.
  destruct (has_room c); reflexivity.
Qed.

(** An output port publishes the frames it reads in the order in which
    it reads them, each classified, none dropped, as long as its
    channel has room; at the first frame that finds the channel full
    the loop blocks, with what it has published so far in the channel.
    Here the transport has a frame at every poll and no stop signal
    arrives. *)
Theorem SystemOutPort_Run_publishes {env : MidiEnv} (fs : list Z) :
  forall (w : PortW) (c : chan Event),
    is_Some (stream (port w)) -> isOpen (port w) = true ->
    recv (stop (port w)) = Block ->
    events (port w) = Some c -> closed c = false ->
    let room := (cap c - length (buf c))%nat in
    let published := map classify_frame (take room fs) in
    SystemOutPort_Run (map (fun f => mkPmAnswers (1, None) (1, f)) fs) w
    = (if Nat.leb (length fs) room then Ret None else Block,
       mkPortW (set_events (Chan (cap c) (buf c ++ published) false) (port w))
               (effects w ++ map EventSent published)).
Proof.
  induction fs as [| f fs IH]; intros w c Hs Hopen Hstop Hev Hcl room published.
  - subst published. rewrite take_nil. cbn.
    unfold ret. rewrite !app_nil_r. f_equal.
    destruct w as [[o i st ev sp] eff]; cbn in *. subst ev.
    destruct c as [cc bc clc]; cbn in *. subst clc. reflexivity.
  - cbn [map SystemOutPort_Run]. unfold bind.
    rewrite (SystemOutPort_Run_iter_frame f w c Hs Hopen Hstop Hev Hcl).
    unfold has_room. destruct (Nat.ltb_spec (length (buf c)) (cap c)) as [Hroom | Hfull].
    + set (w1 := mkPortW _ _).
      specialize (IH w1 (push c (classify_frame f)) Hs Hopen Hstop eq_refl Hcl).
      cbn zeta in IH. rewrite IH. clear IH.
      cbn [push cap buf]. rewrite length_app. cbn [length].
      assert (Hr : room = S (cap c - (length (buf c) + 1))) by (subst room; lia).
      subst published. rewrite Hr. cbn [take map length].
      replace (Nat.leb (S (length fs)) (S (cap c - (length (buf c) + 1))))
        with (Nat.leb (length fs) (cap c - (length (buf c) + 1))) by reflexivity.
      f_equal. unfold w1; cbn [port effects set_events isOpen id stream stop events].
      rewrite <- !app_assoc. reflexivity.
    + assert (Hr : room = 0%nat) by (subst room; lia).
      subst published. rewrite Hr. cbn [take map length Nat.leb].
      rewrite !app_nil_r. f_equal.
      destruct w as [[o i st ev sp] eff]; cbn in *. subst ev.
      destruct c as [cc bc clc]; cbn in *. subst clc. reflexivity.
Qed.

Lemma SystemOutPort_Run_publishes_witness :
  @SystemOutPort_Run midi10
    (map (fun f => mkPmAnswers (1, None) (1, f)) [0x643C90; 0x003C80; 0x7F07B0])
    idle_port
  = (Block,
     mkPortW (mkSystemPort true 0 (Some 1)
                (Some (Chan 2 [NoteOn 0 60 100; NoteOff 0 60 0] false))
                (Some (make 1)))
             [EventSent (NoteOn 0 60 100); EventSent (NoteOff 0 60 0)]).
Proof.
  apply (@SystemOutPort_Run_publishes midi10 [0x643C90; 0x003C80; 0x7F07B0]
           idle_port (make 2)); try reflexivity.
  eexists; reflexivity.
Defined.

(** A stop signal in the slot ends the loop before it touches the
    transport, whatever the transport would answer; and without a stop
    signal, the loop of a port that is not open, or that has no stream,
    panics at once.  So it does after [Open] on a port whose id is -1:
    that [Open] returns nil and leaves the port as it was, not open and
    without a stream. *)
Theorem SystemOutPort_Run_edges {env : MidiEnv} (a : PmAnswers)
    (rest : list PmAnswers) (w : PortW) :
  (forall v c,
      recv (stop (port w)) = Ret (v, c) ->
      SystemOutPort_Run (a :: rest) w
      = (Ret (Some tt), mkPortW (set_stop c (port w)) (effects w ++ [StopTaken]))) /\
  (recv (stop (port w)) = Block ->
   isOpen (port w) = false \/ stream (port w) = None ->
   SystemOutPort_Run (a :: rest) w = (Panic, w)) /\
  (forall errNum h,
      id (port w) = -1 -> isOpen (port w) = false -> stream (port w) = None ->
      recv (stop (port w)) = Block ->
      SystemOutPort_Open errNum h w = (Ret None, w) /\
      SystemOutPort_Run (a :: rest) (snd (SystemOutPort_Open errNum h w)) = (Panic, w)).
Proof.
  assert (Hpanic : recv (stop (port w)) = Block ->
                   isOpen (port w) = false \/ stream (port w) = None ->
                   SystemOutPort_Run (a :: rest) w = (Panic, w)).
  { intros Hstop Hclosed.
    cbn [SystemOutPort_Run]. unfold bind, SystemOutPort_Run_iter, bind, take_stop, get, ret.
    rewrite Hstop. unfold poll, SystemPort_IsOpen.
    destruct (stream (port w)) as [h |]; [| reflexivity].
    destruct Hclosed as [Hc | Hc]; [| discriminate]. rewrite Hc. reflexivity. }
  split; [| split; [exact Hpanic |]].
  - intros v c Hstop.
    cbn [SystemOutPort_Run]. unfold bind, SystemOutPort_Run_iter, bind, take_stop, ret.
    rewrite Hstop. reflexivity.
  - intros errNum h Hid Hopen Hs Hstop.
    assert (HO : SystemOutPort_Open errNum h w = (Ret None, w)).
    { unfold SystemOutPort_Open, bind, get, ret. rewrite Hopen, Hid. reflexivity. }
    rewrite HO. split; [reflexivity |]. apply Hpanic; auto.
Qed.

Lemma SystemOutPort_Run_edges_witness :
  @SystemOutPort_Run midi10 [mkPmAnswers (1, None) (1, 0x643C90)]
    (mkPortW (mkSystemPort false (-1) None (Some (make 2)) (Some (make 1))) [])
  = (Panic, mkPortW (mkSystemPort false (-1) None (Some (make 2)) (Some (make 1))) []).
Proof.
  apply (proj1 (proj2 (@SystemOutPort_Run_edges midi10 (mkPmAnswers (1, None) (1, 0x643C90)) []
                         (mkPortW (mkSystemPort false (-1) None (Some (make 2))
                                     (Some (make 1))) [])))).
  - reflexivity.
  - left. reflexivity.
Defined.

(** ** Opening a port again *)




(** ** The loop of an input port *)

Section InPortProperties.
Context {env : MidiEnv}.
Variable toRaw : Event -> Z.



(** [Close] leaves an input port's loop a [select] with both cases
    ready: the stop signal is in its slot and the closed event channel
    yields nil events.  When Go picks the stop case the loop returns;
    when it picks the event case the loop calls a method on the nil
    event and panics.  Without a stop signal a closed and empty event
    channel makes the loop panic whatever the pick. *)
Theorem SystemInPort_Run_after_Close (errNum : Z) (s : SystemPort) (l : list Effect)
    (c : chan Event) (st : chan bool) (a : InAnswers) (rest : list InAnswers)
    (ws : list Z) :
  isOpen s = true ->
  events s = Some c -> buf c = [] -> closed c = false ->
  stop s = Some st -> buf st = [] -> closed st = false -> has_room st = true ->
  let s1 := port (snd (SystemPort_Close errNum (mkPortW s l))) in
  fst (SystemPort_Close errNum (mkPortW s l)) = Ret (makePortMidiError errNum) /\
  (in_pick a = SelStop ->
   fst (SystemInPort_Run toRaw (a :: rest) (mkInPortW s1 ws)) = Ret (Some tt)) /\
  (in_pick a = SelEvents ->
   fst (SystemInPort_Run toRaw (a :: rest) (mkInPortW s1 ws)) = Panic) /\
  fst (SystemInPort_Run toRaw (a :: rest)
         (mkInPortW (set_stop (Chan (cap st) [] false) s1) ws)) = Panic.
Proof.
  intros Hopen Hev Hbuf Hcl Hst Hsbuf Hstcl Hroom s1.
  pose proof (SystemPort_Close_open_eq errNum (mkPortW s l) Hopen) as HC. cbn zeta in HC.
  cbn [port] in HC. unfold send, close in HC.
  rewrite Hst, Hev, Hstcl, Hroom, Hcl in HC.
  subst s1. rewrite HC. cbn [fst snd port]. split; [reflexivity |].
  cbn [SystemInPort_Run]. unfold bind, SystemInPort_Run_iter, in_select, ready.
  cbn [in_port set_events set_stop set_isOpen events stop recv push buf cap closed].
  rewrite Hbuf, Hsbuf. cbn.
  repeat split; intros ->; reflexivity.
Qed.

End InPortProperties.


Lemma SystemInPort_Run_after_Close_witness :
  fst (@SystemInPort_Run midi10 (@ToRawMessage midi10) [mkInAnswers SelEvents 0]
         (mkInPortW (mkSystemPort false 3 (Some 1) (Some (Chan 2 [] true))
                       (Some (Chan 1 [true] false))) []))
  = Panic.
Proof.
  exact (proj1 (proj2 (proj2
           (@SystemInPort_Run_after_Close midi10 (@ToRawMessage midi10) 0
              (mkSystemPort true 3 (Some 1) (Some (make 2)) (Some (make 1))) []
              (make 2) (make 1) (mkInAnswers SelEvents 0) [] []
              eq_refl eq_refl eq_refl eq_refl eq_refl eq_refl eq_refl eq_refl)))
           eq_refl).
Defined.

(** ** Opening and closing the devices of a connector *)

Section ConnectorProperties.
Context {D : DeviceImpl}.

(** A method call that returns was made on a device of the store, and
    is the one call it adds. *)
Lemma call_method_returns (m : M DevState error) (c : nat -> Call) (d : Device)
    (w w' : World) (e : error) :
  call_method m c d w = (Ret e, w') ->
  exists h, d = Some h /\ calls w' = calls w ++ [c h] /\
            length (devs w') = length (devs w).
Proof.
  unfold call_method. destruct d as [h |]; [| discriminate].
  destruct (devs w !! h) as [st |]; [| discriminate].
  destruct (m st) as [r st']. intros [= -> <-]. cbn.
  exists h. rewrite length_insert. auto.
Qed.

(** The devices opened by a loop of [Open] calls are the first ones of
    the list, in order: all of them when the loop returns a nil error;
    otherwise up to the first whose [Open] fails, whose error the loop
    returns at once: those after it are not touched, and nothing is
    closed. *)
Lemma open_all_prefix (ds : list Device) (w w' : World) (err : error) :
  open_all ds w = (Ret err, w') ->
  match err with
  | None =>
      exists hs,
        ds = map Some hs /\
        all_succeed Device_Open hs w = Some w' /\
        calls w' = calls w ++ map CallOpen hs
  | Some e =>
      exists hs h rest w1,
        ds = map Some hs ++ Some h :: rest /\
        all_succeed Device_Open hs w = Some w1 /\
        Device_Open (Some h) w1 = (Ret (Some e), w') /\
        calls w' = calls w ++ map CallOpen hs ++ [CallOpen h]
  end.
Proof.
  revert w. induction ds as [| d ds IH]; intros w H; cbn in H.
  - injection H as <- <-. exists []. cbn. rewrite app_nil_r. auto.
  - unfold bind in H. destruct (Device_Open d w) as [[e | |] w1] eqn:HO; try discriminate.
    pose proof HO as HO'. apply call_method_returns in HO' as (h & -> & Hcalls & _).
    destruct e as [msg |].
    + injection H as <- <-. exists [], h, ds, w. cbn. auto.
    + specialize (IH w1 H). destruct err as [e |].
      * destruct IH as (hs & h' & rest & w2 & -> & Hall & Hfail & Hc).
        exists (h :: hs), h', rest, w2. cbn [all_succeed map app]. rewrite HO.
        repeat split; auto. rewrite Hc, Hcalls, <- app_assoc. reflexivity.
      * destruct IH as (hs & -> & Hall & Hc).
        exists (h :: hs). cbn [all_succeed map app]. rewrite HO.
        repeat split; auto. rewrite Hc, Hcalls, <- app_assoc. reflexivity.
Qed.

Lemma lift_world_returns {A} (m : M World A) (s s' : FunnelW) (r : result A) :
  lift_world m s = (r, s') ->
  m (fw_world s) = (r, fw_world s') /\ fw_stop s' = fw_stop s.
Proof.
  unfold lift_world. destruct (m (fw_world s)) as [r0 w]. intros [= <- <-]. auto.
Qed.

(** The same for a loop of [Close] calls. *)
Lemma close_all_prefix (ds : list Device) (s s' : FunnelW) (err : error) :
  close_all ds s = (Ret err, s') ->
  fw_stop s' = fw_stop s /\
  match err with
  | None =>
      exists hs,
        ds = map Some hs /\
        all_succeed Device_Close hs (fw_world s) = Some (fw_world s') /\
        calls (fw_world s') = calls (fw_world s) ++ map CallClose hs
  | Some e =>
      exists hs h rest w1,
        ds = map Some hs ++ Some h :: rest /\
        all_succeed Device_Close hs (fw_world s) = Some w1 /\
        Device_Close (Some h) w1 = (Ret (Some e), fw_world s') /\
        calls (fw_world s') = calls (fw_world s) ++ map CallClose hs ++ [CallClose h]
  end.
Proof.
  revert s. induction ds as [| d ds IH]; intros s H; cbn in H.
  - injection H as <- <-. split; [reflexivity |].
    exists []. cbn. rewrite app_nil_r. auto.
  - unfold bind in H.
    destruct (lift_world (Device_Close d) s) as [[e | |] s1] eqn:HC; try discriminate.
    apply lift_world_returns in HC as [HC Hstop].
    pose proof HC as HC'. apply call_method_returns in HC' as (h & -> & Hcalls & _).
    destruct e as [msg |].
    + injection H as <- <-. split; [assumption |].
      exists [], h, ds, (fw_world s). cbn. auto.
    + destruct (IH s1 H) as (Hstop' & Hpre). split; [congruence |].
      destruct err as [e |].
      * destruct Hpre as (hs & h' & rest & w2 & -> & Hall & Hfail & Hc).
        exists (h :: hs), h', rest, w2. cbn [all_succeed map app]. rewrite HC.
        repeat split; auto. rewrite Hc, Hcalls, <- app_assoc. reflexivity.
      * destruct Hpre as (hs & -> & Hall & Hc).
        exists (h :: hs). cbn [all_succeed map app]. rewrite HC.
        repeat split; auto. rewrite Hc, Hcalls, <- app_assoc. reflexivity.
Qed.

(** [NewRouter] and [NewFunnel] are a loop of [Open] calls over the
    devices, the single device first: [From] and then the [To] devices
    for a router, [To] and then the [From] devices for a funnel. *)
Lemma NewRouter_open_all (from : Device) (to : list Device) (w : World) :
  NewRouter from to w
  = match open_all (from :: to) w with
    | (Ret None, w') => (Ret (mkRouter from to (Some (make 1)), None), w')
    | (Ret (Some e), w') => (Ret (emptyRouter, Some e), w')
    | (Block, w') => (Block, w')
    | (Panic, w') => (Panic, w')
    end.
Proof.
  unfold NewRouter; cbn [open_all rFrom rTo]. unfold bind, ret.
  destruct (Device_Open from w) as [[[e |] | |] w1]; try reflexivity.
  destruct (open_all to w1) as [[[e |] | |] w2]; reflexivity.
Qed.

Lemma NewFunnel_open_all (to : Device) (from : list Device) (w : World) :
  NewFunnel to from w
  = match open_all (to :: from) w with
    | (Ret None, w') => (Ret (mkFunnel from to, Some (make 1), None), w')
    | (Ret (Some e), w') => (Ret (mkFunnel [] None, None, Some e), w')
    | (Block, w') => (Block, w')
    | (Panic, w') => (Panic, w')
    end.
Proof.
  unfold NewFunnel; cbn [open_all fFrom fTo]. unfold bind, ret.
  destruct (Device_Open to w) as [[[e |] | |] w1]; try reflexivity.
  destruct (open_all from w1) as [[[e |] | |] w2]; reflexivity.
Qed.

(** When [NewRouter] returns, it has called [Open] on the first
    devices of [From], [To...], in that order and each once.  With a
    nil error it has called it on all of them, every call returned nil,
    and the router holds the devices with a fresh stop slot.  With an
    error, the device whose [Open] failed is the last it has called:
    the error is the one that call returned, the calls before it
    returned nil, the devices are left as they were right after the
    failing call (those after it were not touched, those opened before
    it were not closed), and the router is empty. *)
Theorem NewRouter_opens_in_order (from : Device) (to : list Device)
    (w w' : World) (r : Router) (err : error) :
  NewRouter from to w = (Ret (r, err), w') ->
  match err with
  | None =>
      exists hs,
        from :: to = map Some hs /\
        all_succeed Device_Open hs w = Some w' /\
        calls w' = calls w ++ map CallOpen hs /\
        r = mkRouter from to (Some (make 1))
  | Some e =>
      exists hs h rest w1,
        from :: to = map Some hs ++ Some h :: rest /\
        all_succeed Device_Open hs w = Some w1 /\
        Device_Open (Some h) w1 = (Ret (Some e), w') /\
        calls w' = calls w ++ map CallOpen hs ++ [CallOpen h] /\
        r = emptyRouter
  end.
Proof.
  rewrite NewRouter_open_all.
  destruct (open_all (from :: to) w) as [[[e |] | |] w1] eqn:HO; try discriminate;
    intros [= <- <- <-]; apply open_all_prefix in HO.
  - destruct HO as (hs & h & rest & w2 & Hds & Hall & Hfail & Hc).
    exists hs, h, rest, w2. auto.
  - destruct HO as (hs & Hds & Hall & Hc). exists hs. auto.
Qed.

(** [NewFunnel] opens [To] first and the [From] devices after it, in
    order, up to the first whose [Open] fails, with the same
    outcomes. *)
Theorem NewFunnel_opens_in_order (to : Device) (from : list Device)
    (w w' : World) (f : Funnel) (stop : option (chan bool)) (err : error) :
  NewFunnel to from w = (Ret (f, stop, err), w') ->
  match err with
  | None =>
      exists hs,
        to :: from = map Some hs /\
        all_succeed Device_Open hs w = Some w' /\
        calls w' = calls w ++ map CallOpen hs /\
        f = mkFunnel from to /\ stop = Some (make 1)
  | Some e =>
      exists hs h rest w1,
        to :: from = map Some hs ++ Some h :: rest /\
        all_succeed Device_Open hs w = Some w1 /\
        Device_Open (Some h) w1 = (Ret (Some e), w') /\
        calls w' = calls w ++ map CallOpen hs ++ [CallOpen h] /\
        f = mkFunnel [] None /\ stop = None
  end.
Proof.
  rewrite NewFunnel_open_all.
  destruct (open_all (to :: from) w) as [[[e |] | |] w1] eqn:HO; try discriminate;
    intros [= <- <- <- <-]; apply open_all_prefix in HO.
  - destruct HO as (hs & h & rest & w2 & Hds & Hall & Hfail & Hc).
    exists hs, h, rest, w2. auto 6.
  - destruct HO as (hs & Hds & Hall & Hc). exists hs. auto 6.
Qed.

End ConnectorProperties.

Lemma NewRouter_opens_in_order_witness :
  @NewRouter testDevice (Some 0%nat) [Some 1%nat; Some 0%nat] two_devices
  = (Ret (emptyRouter, Some "cannot open"%string),
     @mkWorld testDevice [mkTestDev true true; mkTestDev false false]
       [CallOpen 0; CallOpen 1]) /\
  exists hs h rest w1,
    [Some 0%nat; Some 1%nat; Some 0%nat] = map Some hs ++ Some h :: rest /\
    all_succeed (@Device_Open testDevice) hs two_devices = Some w1 /\
    @Device_Open testDevice (Some h) w1
    = (Ret (Some "cannot open"%string),
       @mkWorld testDevice [mkTestDev true true; mkTestDev false false]
         [CallOpen 0; CallOpen 1]) /\
    [CallOpen 0; CallOpen 1] = [] ++ map CallOpen hs ++ [CallOpen h] /\
    emptyRouter = emptyRouter.
Proof.
  split; [reflexivity |].
  exact (@NewRouter_opens_in_order testDevice (Some 0%nat) [Some 1%nat; Some 0%nat]
           two_devices
           (@mkWorld testDevice [mkTestDev true true; mkTestDev false false]
              [CallOpen 0; CallOpen 1])
           emptyRouter (Some "cannot open"%string) eq_refl).
Defined.

Lemma NewFunnel_opens_in_order_witness :
  @NewFunnel testDevice (Some 0%nat) [Some 0%nat; Some 1%nat; Some 0%nat] two_devices
  = (Ret (mkFunnel [] None, None, Some "cannot open"%string),
     @mkWorld testDevice [mkTestDev true true; mkTestDev false false]
       [CallOpen 0; CallOpen 0; CallOpen 1]) /\
  exists hs h rest w1,
    [Some 0%nat; Some 0%nat; Some 1%nat; Some 0%nat] = map Some hs ++ Some h :: rest /\
    all_succeed (@Device_Open testDevice) hs two_devices = Some w1 /\
    @Device_Open testDevice (Some h) w1
    = (Ret (Some "cannot open"%string),
       @mkWorld testDevice [mkTestDev true true; mkTestDev false false]
         [CallOpen 0; CallOpen 0; CallOpen 1]) /\
    [CallOpen 0; CallOpen 0; CallOpen 1] = [] ++ map CallOpen hs ++ [CallOpen h] /\
    mkFunnel [] None = mkFunnel [] None /\ @None (chan bool) = None.
Proof.
  split; [reflexivity |].
  exact (@NewFunnel_opens_in_order testDevice (Some 0%nat)
           [Some 0%nat; Some 1%nat; Some 0%nat] two_devices
           (@mkWorld testDevice [mkTestDev true true; mkTestDev false false]
              [CallOpen 0; CallOpen 0; CallOpen 1])
           (mkFunnel [] None) None (Some "cannot open"%string) eq_refl).
Defined.

(** ** Stopping a connector *)

Section StopProperties.
Context {D : DeviceImpl}.

(** The three [Stop] methods are the send of the stop signal followed
    by a loop of [Close] calls: over [From] and [To] for a pipe, over
    [From] and the [To] devices for a router, over [To] and the [From]
    devices for a funnel. *)
Lemma Pipe_Stop_close_all (p : Pipe) (s : FunnelW) :
  Pipe_Stop p s = bind signal_stop (fun _ => close_all [pFrom p; pTo p]) s.
Proof.
  unfold Pipe_Stop, bind; cbn [close_all]. unfold bind, ret.
  destruct (signal_stop s) as [[[] | |] s1]; try reflexivity.
  destruct (lift_world (Device_Close (pFrom p)) s1) as [[[e |] | |] s2]; try reflexivity.
  destruct (lift_world (Device_Close (pTo p)) s2) as [[[e |] | |] s3]; reflexivity.
Qed.

Lemma Router_Stop_close_all (r : Router) (s : FunnelW) :
  Router_Stop r s = bind signal_stop (fun _ => close_all (rFrom r :: rTo r)) s.
Proof. reflexivity. Qed.

Lemma Funnel_Stop_close_all (f : Funnel) (s : FunnelW) :
  Funnel_Stop f s = bind signal_stop (fun _ => close_all (fTo f :: fFrom f)) s.
Proof. reflexivity. Qed.

Lemma stop_close_blocked (ds : list Device) (s : FunnelW) :
  send (fw_stop s) true = Block ->
  bind signal_stop (fun _ => close_all ds) s = (Block, s).
Proof.
  intros H. unfold bind, signal_stop. rewrite H. reflexivity.
Qed.

Lemma stop_close_returns (ds : list Device) (s s' : FunnelW) (err : error) :
  bind signal_stop (fun _ => close_all ds) s = (Ret err, s') ->
  (exists c, fw_stop s = Some c /\ closed c = false /\ has_room c = true /\
             fw_stop s' = Some (push c true)) /\
  match err with
  | None =>
      exists hs,
        ds = map Some hs /\
        all_succeed Device_Close hs (fw_world s) = Some (fw_world s') /\
        calls (fw_world s') = calls (fw_world s) ++ map CallClose hs
  | Some e =>
      exists hs h rest w1,
        ds = map Some hs ++ Some h :: rest /\
        all_succeed Device_Close hs (fw_world s) = Some w1 /\
        Device_Close (Some h) w1 = (Ret (Some e), fw_world s') /\
        calls (fw_world s') = calls (fw_world s) ++ map CallClose hs ++ [CallClose h]
  end.
Proof.
  unfold bind, signal_stop.
  destruct (send (fw_stop s) true) as [c | |] eqn:Hsend; try discriminate.
  intros H. apply close_all_prefix in H as (Hstop & Hpre). cbn in Hstop, Hpre.
  split; [| exact Hpre].
  destruct (fw_stop s) as [c0 |] eqn:E; [| discriminate].
  apply send_Some_inv in Hsend as (Hcl & Hroom & ->). eauto.
Qed.

Lemma slot_unavailable (s : FunnelW) :
  (fw_stop s = None \/
   exists c, fw_stop s = Some c /\ closed c = false /\ has_room c = false) ->
  send (fw_stop s) true = Block.
Proof.
  intros [-> | (c & -> & Hcl & Hroom)]; [reflexivity |].
  unfold send. rewrite Hcl, Hroom. reflexivity.
Qed.

(** [Stop] sends on the stop slot before anything else, and that send
    is a blocking one: on a connector whose slot is nil (the empty
    connector a failed constructor returns) or full, [Stop] blocks for
    ever and closes no device.  The slot of the constructors has one
    place, so a second [Stop], when no loop has taken the signal of the
    first, blocks. *)
Theorem Stop_blocks (p : Pipe) (r : Router) (f : Funnel) (s : FunnelW) :
  ((fw_stop s = None \/
    exists c, fw_stop s = Some c /\ closed c = false /\ has_room c = false) ->
   Pipe_Stop p s = (Block, s) /\
   Router_Stop r s = (Block, s) /\
   Funnel_Stop f s = (Block, s)) /\
  (forall c, fw_stop s = Some c -> cap c = 1%nat ->
   (forall err s1, Pipe_Stop p s = (Ret err, s1) -> Pipe_Stop p s1 = (Block, s1)) /\
   (forall err s1, Router_Stop r s = (Ret err, s1) -> Router_Stop r s1 = (Block, s1)) /\
   (forall err s1, Funnel_Stop f s = (Ret err, s1) -> Funnel_Stop f s1 = (Block, s1))).
Proof.
  split.
  { intros H. apply slot_unavailable in H.
    rewrite Pipe_Stop_close_all, Router_Stop_close_all, Funnel_Stop_close_all.
    rewrite !stop_close_blocked by assumption. auto. }
  intros c Hs Hcap.
  assert (Hfull : forall ds err s1,
             bind signal_stop (fun _ => close_all ds) s = (Ret err, s1) ->
             send (fw_stop s1) true = Block).
  { intros ds err s1 H. apply stop_close_returns in H as [(c0 & Hc0 & Hcl & Hroom & Hs1) _].
    apply slot_unavailable.
    right. exists (push c0 true). rewrite Hs in Hc0. injection Hc0 as <-.
    repeat split; auto. unfold has_room in *. cbn [push buf cap].
    rewrite length_app, Hcap. cbn [length].
    apply Nat.ltb_lt in Hroom. apply Nat.ltb_ge. lia. }
  repeat split; intros err s1 H.
  - rewrite Pipe_Stop_close_all in H. rewrite Pipe_Stop_close_all.
    apply stop_close_blocked. eapply Hfull; eauto.
  - rewrite Router_Stop_close_all in H. rewrite Router_Stop_close_all.
    apply stop_close_blocked. eapply Hfull; eauto.
  - rewrite Funnel_Stop_close_all in H. rewrite Funnel_Stop_close_all.
    apply stop_close_blocked. eapply Hfull; eauto.
Qed.

(** When [Stop] returns, it has put one signal in the slot and called
    [Close] on the first devices of its list, in order and each once.
    With a nil error it has called it on all of them and every call
    returned nil.  With an error, the device whose [Close] failed is
    the last it has called: the error is the one that call returned,
    the calls before it returned nil, and the devices are left as they
    were right after the failing call, so that those after it are
    still open.  The list is [From], [To] for a pipe; [From], [To...]
    for a router; [To], [From...] for a funnel. *)
Theorem Stop_closes_in_order (s s' : FunnelW) (err : error) :
  let outcome (ds : list Device) :=
    (exists c, fw_stop s = Some c /\ closed c = false /\ has_room c = true /\
               fw_stop s' = Some (push c true)) /\
    match err with
    | None =>
        exists hs,
          ds = map Some hs /\
          all_succeed Device_Close hs (fw_world s) = Some (fw_world s') /\
          calls (fw_world s') = calls (fw_world s) ++ map CallClose hs
    | Some e =>
        exists hs h rest w1,
          ds = map Some hs ++ Some h :: rest /\
          all_succeed Device_Close hs (fw_world s) = Some w1 /\
          Device_Close (Some h) w1 = (Ret (Some e), fw_world s') /\
          calls (fw_world s') = calls (fw_world s) ++ map CallClose hs ++ [CallClose h]
    end in
  (forall p, Pipe_Stop p s = (Ret err, s') -> outcome [pFrom p; pTo p]) /\
  (forall r, Router_Stop r s = (Ret err, s') -> outcome (rFrom r :: rTo r)) /\
  (forall f, Funnel_Stop f s = (Ret err, s') -> outcome (fTo f :: fFrom f)).
Proof.
  cbv zeta. split; [| split].
  - intros p H. rewrite Pipe_Stop_close_all in H. apply stop_close_returns in H.
    exact H.
  - intros r H. rewrite Router_Stop_close_all in H. apply stop_close_returns in H.
    exact H.
  - intros f H. rewrite Funnel_Stop_close_all in H. apply stop_close_returns in H.
    exact H.
Qed.

End StopProperties.

(** ** Chains *)

Section ChainProperties.
Context {D : DeviceImpl}.

Lemma NewChain_loop_calls (indices : list nat) :
  forall (c : Chain) (w w' : World) (r : result (Chain * error)),
    NewChain_loop indices c w = (r, w') ->
    (exists new, calls w' = calls w ++ new /\ forallb is_open_call new = true) /\
    (forall c' e, r = Ret (c', Some e) -> c' = emptyChain).
Proof.
  induction indices as [| i indices IH]; intros c w w' r H; cbn [NewChain_loop] in H;
    unfold ret in H.
  - simplify_eq.
    split; [exists []; rewrite app_nil_r; auto | intros c' e' Heq; discriminate Heq].
  - unfold bind, index in H.
    destruct (Devices c !! (i - 1)%nat) as [from |]; cbv beta iota in H.
    2: { simplify_eq.
         split; [exists []; rewrite app_nil_r; auto | intros c' e' Heq; discriminate Heq]. }
    destruct (Devices c !! i) as [to |]; cbv beta iota in H.
    2: { simplify_eq.
         split; [exists []; rewrite app_nil_r; auto | intros c' e' Heq; discriminate Heq]. }
    destruct (NewPipe from to w) as [r1 w1] eqn:HP.
    apply NewPipe_calls in HP as (n1 & E1 & F1).
    destruct r1 as [[pipe [e |]] | |]; cbv beta iota in H.
    + simplify_eq. split; [eauto |]. intros c' e' [= <- _]. reflexivity.
    + destruct (Nat.ltb (i - 1) (length (pipes c))).
      * apply IH in H as [(n2 & E2 & F2) Hempty]. split; [| exact Hempty].
        exists (n1 ++ n2). rewrite E2, E1, <- app_assoc, forallb_app, F1, F2. auto.
      * simplify_eq. split; [eauto | intros c' e' Heq; discriminate Heq].
    + simplify_eq. split; [eauto | intros c' e' Heq; discriminate Heq].
    + simplify_eq. split; [eauto | intros c' e' Heq; discriminate Heq].
Qed.

(** Whatever happens in [NewChain], the only calls it makes on devices
    are [Open] calls: when a pipe cannot be made, the devices opened
    for the pipes before it stay open, and the chain returned with the
    error is the empty one. *)
Theorem NewChain_no_rollback (devices : list Device) (w w' : World)
    (r : result (Chain * error)) :
  NewChain devices w = (r, w') ->
  (exists new, calls w' = calls w ++ new /\ forallb is_open_call new = true) /\
  (forall c e, r = Ret (c, Some e) -> c = emptyChain).
Proof.
  unfold NewChain.
  destruct (make_slice emptyPipe (Z.of_nat (length devices) - 1)) as [ps | |].
  - apply NewChain_loop_calls.
  - intros [= <- <-].
    split; [exists []; rewrite app_nil_r; auto | intros c' e' Heq; discriminate Heq].
  - intros [= <- <-].
    split; [exists []; rewrite app_nil_r; auto | intros c' e' Heq; discriminate Heq].
Qed.

Lemma in_store_length (w w' : World) (d : Device) :
  length (devs w') = length (devs w) -> in_store w d -> in_store w' d.
Proof.
  intros Hlen (h & -> & Hh). exists h. split; [reflexivity |].
  apply lookup_lt_is_Some. rewrite Hlen. apply lookup_lt_is_Some. exact Hh.
Qed.

Lemma Device_Open_succeeds (d : Device) (w : World) :
  (forall st, exists st', dev_Open st = (Ret None, st')) ->
  in_store w d ->
  exists h w', d = Some h /\ Device_Open d w = (Ret None, w') /\
               calls w' = calls w ++ [CallOpen h] /\
               length (devs w') = length (devs w).
Proof.
  intros Hok (h & -> & [st Hst]). destruct (Hok st) as [st' Hst'].
  exists h. eexists. split; [reflexivity |].
  unfold Device_Open, call_method. rewrite Hst, Hst'.
  split; [reflexivity |]. cbn. rewrite length_insert. auto.
Qed.

Lemma NewPipe_succeeds (from to : Device) (w : World) :
  (forall st, exists st', dev_Open st = (Ret None, st')) ->
  in_store w from -> in_store w to ->
  exists w',
    NewPipe from to w = (Ret (mkPipe from to (Some (make 1)), None), w') /\
    calls w' = calls w ++ pipe_calls CallOpen [mkPipe from to (Some (make 1))] /\
    length (devs w') = length (devs w).
Proof.
  intros Hok Hf Ht.
  destruct (Device_Open_succeeds from w Hok Hf) as (hf & w1 & -> & H1 & C1 & L1).
  destruct (Device_Open_succeeds to w1 Hok (in_store_length w w1 to L1 Ht))
    as (ht & w2 & -> & H2 & C2 & L2).
  exists w2. unfold NewPipe, bind, ret; cbn [pFrom pTo]. rewrite H1, H2.
  split; [reflexivity |]. split; [| congruence].
  rewrite C2, C1, <- app_assoc. reflexivity.
Qed.

Lemma chain_pipes_cons (a b : Device) (rest : list Device) :
  chain_pipes (a :: b :: rest) = mkPipe a b (Some (make 1)) :: chain_pipes (b :: rest).
Proof. reflexivity. Qed.

Lemma pipe_calls_app (c : nat -> Call) (ps qs : list Pipe) :
  pipe_calls c (ps ++ qs) = pipe_calls c ps ++ pipe_calls c qs.
Proof. unfold pipe_calls. apply flat_map_app. Qed.

Lemma NewChain_loop_links (devices : list Device) (k : nat) :
  (forall st, exists st', dev_Open st = (Ret None, st')) ->
  forall (i : nat) (done : list Pipe) (w : World),
    i = S (length done) -> (i + k = length devices)%nat ->
    Forall (in_store w) devices ->
    exists w',
      NewChain_loop (seq i k) (mkChain devices (done ++ replicate k emptyPipe)) w
      = (Ret (mkChain devices (done ++ chain_pipes (drop (i - 1) devices)), None), w') /\
      calls w' = calls w ++ pipe_calls CallOpen (chain_pipes (drop (i - 1) devices)) /\
      length (devs w') = length (devs w).
Proof.
  intros Hok. induction k as [| k IH]; intros i done w Hi Hlen Hstore.
  - exists w. cbn [seq NewChain_loop replicate].
    assert (Hlast : exists x, drop (i - 1) devices = [x]).
    { destruct (lookup_lt_is_Some_2 devices (i - 1)) as [x Hx]; [lia |].
      exists x. rewrite (drop_S _ _ _ Hx). rewrite drop_ge by lia. reflexivity. }
    destruct Hlast as [x ->]. cbn [chain_pipes]. rewrite !app_nil_r. auto.
  - cbn [seq NewChain_loop]. unfold bind, index. cbn [Devices pipes].
    destruct (lookup_lt_is_Some_2 devices (i - 1)) as [a Ha]; [lia |].
    destruct (lookup_lt_is_Some_2 devices i) as [b Hb]; [lia |].
    rewrite Ha. cbv beta iota. rewrite Hb. cbv beta iota.
    pose proof (proj1 (Forall_forall _ _) Hstore) as Hin.
    destruct (NewPipe_succeeds a b w Hok) as (w1 & HP & C1 & L1).
    { apply Hin. eapply list_elem_of_lookup_2; eauto. }
    { apply Hin. eapply list_elem_of_lookup_2; eauto. }
    rewrite HP.
    assert (Hroom : Nat.ltb (i - 1) (length (done ++ replicate (S k) emptyPipe)) = true).
    { apply Nat.ltb_lt. rewrite length_app, length_replicate. lia. }
    rewrite Hroom.
    assert (Hins : <[(i - 1)%nat := mkPipe a b (Some (make 1))]>
                     (done ++ replicate (S k) emptyPipe)
                   = (done ++ [mkPipe a b (Some (make 1))]) ++ replicate k emptyPipe).
    { rewrite insert_app_r_alt by lia.
      replace (i - 1 - length done)%nat with 0%nat by lia.
      cbn [replicate]. rewrite <- app_assoc. reflexivity. }
    rewrite Hins.
    destruct (IH (S i) (done ++ [mkPipe a b (Some (make 1))]) w1) as (w2 & HL & C2 & L2).
    { rewrite length_app. cbn [length]. lia. }
    { lia. }
    { eapply Forall_impl; [exact Hstore |]. intros d. apply in_store_length. exact L1. }
    exists w2. replace (S i - 1)%nat with i in * by lia.
    assert (Hdrop : drop (i - 1) devices = a :: b :: drop (S i) devices).
    { rewrite (drop_S _ _ _ Ha). replace (S (i - 1)) with i by lia.
      rewrite (drop_S _ _ _ Hb). reflexivity. }
    rewrite Hdrop, chain_pipes_cons, <- (drop_S _ _ _ Hb).
    split; [rewrite HL, <- app_assoc; reflexivity |].
    split; [| congruence].
    rewrite C2, C1, <- app_assoc.
    change (mkPipe a b (Some (make 1)) :: chain_pipes (drop i devices))
      with ([mkPipe a b (Some (make 1))] ++ chain_pipes (drop i devices)).
    rewrite pipe_calls_app. reflexivity.
Qed.

(** When every device can be opened, [NewChain] over at least one
    device returns a chain with one pipe per pair of neighbours, in
    order, each with a stop slot of its own, and a nil error; it has
    opened the two devices of each pipe, pipe by pipe, so every device
    that is neither the first nor the last was opened twice. *)
Theorem NewChain_links_neighbours (devices : list Device) (w : World) :
  (forall st, exists st', dev_Open st = (Ret None, st')) ->
  devices <> [] -> Forall (in_store w) devices ->
  exists w',
    NewChain devices w = (Ret (mkChain devices (chain_pipes devices), None), w') /\
    calls w' = calls w ++ pipe_calls CallOpen (chain_pipes devices) /\
    length (pipes (mkChain devices (chain_pipes devices))) = (length devices - 1)%nat.
Proof.
  intros Hok Hne Hstore. unfold NewChain, make_slice.
  destruct devices as [| d devices]; [contradiction |].
  destruct (Z.ltb_spec (Z.of_nat (length (d :: devices)) - 1) 0) as [Hneg | _];
    [cbn [length] in Hneg; lia |].
  replace (Z.to_nat (Z.of_nat (length (d :: devices)) - 1))
    with (length (d :: devices) - 1)%nat by lia.
  destruct (NewChain_loop_links (d :: devices) (length (d :: devices) - 1) Hok
              1%nat [] w eq_refl) as (w' & HL & HC & _); [cbn [length]; lia | assumption |].
  cbn [app Nat.sub drop] in HL, HC. exists w'. split; [exact HL |]. split; [exact HC |].
  cbn [pipes]. clear. revert d. induction devices as [| b devices IH]; intros d.
  - reflexivity.
  - rewrite chain_pipes_cons. cbn [length]. rewrite IH. cbn [length]. lia.
Qed.

End ChainProperties.

Lemma NewChain_links_neighbours_witness :
  @NewChain plainDevice [Some 0%nat; Some 1%nat; Some 2%nat]
    (@mkWorld plainDevice [false; false; false] [])
  = (Ret (mkChain [Some 0%nat; Some 1%nat; Some 2%nat]
            [mkPipe (Some 0%nat) (Some 1%nat) (Some (make 1));
             mkPipe (Some 1%nat) (Some 2%nat) (Some (make 1))], None),
     @mkWorld plainDevice [true; true; true]
       [CallOpen 0; CallOpen 1; CallOpen 1; CallOpen 2]) /\
  exists w',
    @NewChain plainDevice [Some 0%nat; Some 1%nat; Some 2%nat]
      (@mkWorld plainDevice [false; false; false] [])
    = (Ret (mkChain [Some 0%nat; Some 1%nat; Some 2%nat]
              (chain_pipes [Some 0%nat; Some 1%nat; Some 2%nat]), None), w') /\
    calls w' = [] ++ pipe_calls CallOpen (chain_pipes [Some 0%nat; Some 1%nat; Some 2%nat]) /\
    length (chain_pipes [Some 0%nat; Some 1%nat; Some 2%nat]) = 2%nat.
Proof.
  split; [reflexivity |].
  apply (@NewChain_links_neighbours plainDevice [Some 0%nat; Some 1%nat; Some 2%nat]
           (@mkWorld plainDevice [false; false; false] [])).
  - intros st. exists true. reflexivity.
  - discriminate.
  - repeat constructor; eexists; (split; [reflexivity |]); eexists; reflexivity.
Defined.

Lemma NewChain_no_rollback_witness :
  @NewChain testDevice [Some 0%nat; Some 0%nat; Some 1%nat] two_devices
  = (Ret (emptyChain, Some "cannot open"%string),
     @mkWorld testDevice [mkTestDev true true; mkTestDev false false]
       [CallOpen 0; CallOpen 0; CallOpen 0; CallOpen 1]) /\
  exists new,
    [CallOpen 0; CallOpen 0; CallOpen 0; CallOpen 1] = [] ++ new /\
    forallb is_open_call new = true.
Proof.
  split; [reflexivity |].
  apply (proj1 (@NewChain_no_rollback testDevice [Some 0%nat; Some 0%nat; Some 1%nat]
                  two_devices
                  (@mkWorld testDevice [mkTestDev true true; mkTestDev false false]
                     [CallOpen 0; CallOpen 0; CallOpen 0; CallOpen 1])
                  (Ret (emptyChain, Some "cannot open"%string)) eq_refl)).
Defined.

(** ** Stopping a chain *)

Section ChainStopProperties.
Context {D : DeviceImpl}.

Lemma Chain_Stop_loop_app (ps : list Pipe) (p : Pipe) :
  forall (i : nat) (err : error) (s : ChainW),
    Chain_Stop_loop i (ps ++ [p]) err s
    = match Chain_Stop_loop i ps err s with
      | (Ret _, s1) => on_pipe (i + length ps) (Pipe_Stop p) s1
      | (Block, s1) => (Block, s1)
      | (Panic, s1) => (Panic, s1)
      end.
Proof.
  induction ps as [| q ps IH]; intros i err s; cbn [app Chain_Stop_loop length].
  - unfold bind, ret. rewrite Nat.add_0_r.
    destruct (on_pipe i (Pipe_Stop p) s) as [[e | |] s1]; reflexivity.
  - unfold bind. destruct (on_pipe i (Pipe_Stop q) s) as [[e | |] s1]; try reflexivity.
    rewrite IH. replace (S i + length ps)%nat with (i + S (length ps))%nat by lia.
    reflexivity.
Qed.

(** [Chain.Stop] stops every pipe, also after a pipe whose [Stop]
    returned an error, and returns what the [Stop] of the last pipe
    returned: the error of an earlier pipe is overwritten and reaches
    nobody. *)
Theorem Chain_Stop_last_error (devices : list Device) (ps : list Pipe) (p : Pipe)
    (s : ChainW) :
  Chain_Stop (mkChain devices (ps ++ [p])) s
  = match Chain_Stop (mkChain devices ps) s with
    | (Ret _, s1) => on_pipe (length ps) (Pipe_Stop p) s1
    | (Block, s1) => (Block, s1)
    | (Panic, s1) => (Panic, s1)
    end.
Proof.
  unfold Chain_Stop; cbn [pipes]. apply Chain_Stop_loop_app.
Qed.

Lemma Device_Close_succeeds (d : Device) (w : World) :
  (forall st, exists st', dev_Close st = (Ret None, st')) ->
  in_store w d ->
  exists h w', d = Some h /\ Device_Close d w = (Ret None, w') /\
               calls w' = calls w ++ [CallClose h] /\
               length (devs w') = length (devs w).
Proof.
  intros Hok (h & -> & [st Hst]). destruct (Hok st) as [st' Hst'].
  exists h. eexists. split; [reflexivity |].
  unfold Device_Close, call_method. rewrite Hst, Hst'.
  split; [reflexivity |]. cbn. rewrite length_insert. auto.
Qed.

Lemma Pipe_Stop_succeeds (p : Pipe) (s : FunnelW) (c : chan bool) :
  (forall st, exists st', dev_Close st = (Ret None, st')) ->
  fw_stop s = Some c -> closed c = false -> has_room c = true ->
  in_store (fw_world s) (pFrom p) -> in_store (fw_world s) (pTo p) ->
  exists w',
    Pipe_Stop p s = (Ret None, mkFunnelW w' (Some (push c true))) /\
    calls w' = calls (fw_world s) ++ pipe_calls CallClose [p] /\
    length (devs w') = length (devs (fw_world s)).
Proof.
  intros Hok Hs Hcl Hroom Hf Ht.
  destruct (Device_Close_succeeds _ _ Hok Hf) as (hf & w1 & Ef & H1 & C1 & L1).
  destruct (Device_Close_succeeds _ w1 Hok (in_store_length _ w1 _ L1 Ht))
    as (ht & w2 & Et & H2 & C2 & L2).
  exists w2. unfold Pipe_Stop, bind, signal_stop, lift_world, send.
  rewrite Hs, Hcl, Hroom. cbn [fw_world fw_stop]. rewrite H1. cbn [fw_world fw_stop].
  rewrite H2. split; [reflexivity |]. split; [| congruence].
  unfold pipe_calls. cbn [flat_map]. rewrite Ef, Et, app_nil_r.
  rewrite C2, C1, <- app_assoc. reflexivity.
Qed.

Lemma Chain_Stop_loop_succeeds (ps : list Pipe) :
  (forall st, exists st', dev_Close st = (Ret None, st')) ->
  forall (i : nat) (err : error) (s : ChainW),
    (forall j p, ps !! j = Some p ->
                 in_store (cw_world s) (pFrom p) /\ in_store (cw_world s) (pTo p) /\
                 exists c, cw_stops s !! (i + j)%nat = Some (Some c) /\
                           closed c = false /\ has_room c = true) ->
    exists s',
      Chain_Stop_loop i ps err s = (Ret (match ps with [] => err | _ => None end), s') /\
      calls (cw_world s') = calls (cw_world s) ++ pipe_calls CallClose ps /\
      length (devs (cw_world s')) = length (devs (cw_world s)).
Proof.
  intros Hok. induction ps as [| p ps IH]; intros i err s Hps.
  - exists s. cbn. rewrite app_nil_r. auto.
  - destruct (Hps 0%nat p eq_refl) as (Hf & Ht & c & Hc & Hcl & Hroom).
    rewrite Nat.add_0_r in Hc.
    destruct (Pipe_Stop_succeeds p (mkFunnelW (cw_world s) (Some c)) c Hok
                eq_refl Hcl Hroom Hf Ht) as (w1 & HP & C1 & L1).
    cbn [fw_world] in C1, L1.
    cbn [Chain_Stop_loop]. unfold bind at 1. unfold on_pipe. rewrite Hc.
    change (default None (Some (Some c))) with (Some c).
    rewrite HP. cbn [fw_world fw_stop].
    set (s1 := mkChainW w1 _).
    destruct (IH (S i) None s1) as (s2 & HL & C2 & L2).
    { intros j q Hq. destruct (Hps (S j) q Hq) as (Hf' & Ht' & c' & Hc' & Hcl' & Hroom').
      unfold s1; cbn [cw_world cw_stops].
      split; [eapply in_store_length; eauto |].
      split; [eapply in_store_length; eauto |].
      exists c'. rewrite list_lookup_insert_ne by lia.
      replace (S i + j)%nat with (i + S j)%nat by lia. auto. }
    exists s2. split.
    + rewrite HL. destruct ps; [| reflexivity].
      cbn in HL. reflexivity.
    + unfold s1 in C2, L2; cbn [cw_world] in C2, L2. split; [| congruence].
      change (p :: ps) with ([p] ++ ps). rewrite pipe_calls_app, C2, C1, <- app_assoc.
      reflexivity.
Qed.

(** When every device can be closed and every pipe has its stop slot
    free, [Chain.Stop] returns nil after it has closed the two devices
    of each pipe, pipe by pipe: in a chain made by [NewChain], every
    device that is neither the first nor the last is closed twice. *)
Theorem Chain_Stop_closes_each_pipe (c : Chain) (s : ChainW) :
  (forall st, exists st', dev_Close st = (Ret None, st')) ->
  (forall j p, pipes c !! j = Some p ->
               in_store (cw_world s) (pFrom p) /\ in_store (cw_world s) (pTo p) /\
               exists ch, cw_stops s !! j = Some (Some ch) /\
                          closed ch = false /\ has_room ch = true) ->
  exists s',
    Chain_Stop c s = (Ret None, s') /\
    calls (cw_world s') = calls (cw_world s) ++ pipe_calls CallClose (pipes c).
Proof.
  intros Hok Hps.
  destruct (Chain_Stop_loop_succeeds (pipes c) Hok 0%nat None s Hps) as (s' & H & C & _).
  exists s'. split; [| exact C].
  unfold Chain_Stop. rewrite H. destruct (pipes c); reflexivity.
Qed.

End ChainStopProperties.

Lemma Chain_Stop_closes_each_pipe_witness :
  @Chain_Stop plainDevice
    (mkChain [Some 0%nat; Some 1%nat; Some 2%nat]
       (chain_pipes [Some 0%nat; Some 1%nat; Some 2%nat]))
    (@mkChainW plainDevice (@mkWorld plainDevice [true; true; true] [])
       [Some (make 1); Some (make 1)])
  = (Ret None,
     @mkChainW plainDevice
       (@mkWorld plainDevice [false; false; false]
          [CallClose 0; CallClose 1; CallClose 1; CallClose 2])
       [Some (Chan 1 [true] false); Some (Chan 1 [true] false)]) /\
  exists s',
    @Chain_Stop plainDevice
      (mkChain [Some 0%nat; Some 1%nat; Some 2%nat]
         (chain_pipes [Some 0%nat; Some 1%nat; Some 2%nat]))
      (@mkChainW plainDevice (@mkWorld plainDevice [true; true; true] [])
         [Some (make 1); Some (make 1)])
    = (Ret None, s') /\
    calls (cw_world s')
    = [] ++ pipe_calls CallClose (chain_pipes [Some 0%nat; Some 1%nat; Some 2%nat]).
Proof.
  split; [reflexivity |].
  apply (@Chain_Stop_closes_each_pipe plainDevice
           (mkChain [Some 0%nat; Some 1%nat; Some 2%nat]
              (chain_pipes [Some 0%nat; Some 1%nat; Some 2%nat]))
           (@mkChainW plainDevice (@mkWorld plainDevice [true; true; true] [])
              [Some (make 1); Some (make 1)])).
  - intros st. exists false. reflexivity.
  - intros [| [| j]] p Hp; try discriminate Hp; injection Hp as <-;
      (split; [eexists; split; [reflexivity | eexists; reflexivity] |]);
      (split; [eexists; split; [reflexivity | eexists; reflexivity] |]);
      eexists; repeat split; reflexivity.
Defined.

Lemma Stop_blocks_witness :
  (fw_stop (@mkFunnelW testDevice two_devices None) = None \/
   exists c, fw_stop (@mkFunnelW testDevice two_devices None) = Some c /\
             closed c = false /\ has_room c = false) /\
  @Pipe_Stop testDevice emptyPipe (mkFunnelW two_devices None)
  = (Block, mkFunnelW two_devices None).
Proof.
  split; [left; reflexivity |].
  apply (proj1 (@Stop_blocks testDevice emptyPipe emptyRouter (mkFunnel [] None)
                  (mkFunnelW two_devices None))).
  left. reflexivity.
Defined.

Lemma Stop_closes_in_order_witness :
  @Router_Stop strictDevice (mkRouter (Some 0%nat) [Some 1%nat; Some 2%nat] (Some (make 1)))
    (mkFunnelW three_devices (Some (make 1)))
  = (Ret (Some "not open"%string),
     mkFunnelW (@mkWorld strictDevice [false; false; true] [CallClose 0; CallClose 1])
       (Some (Chan 1 [true] false))) /\
  exists hs h rest w1,
    [Some 0%nat; Some 1%nat; Some 2%nat] = map Some hs ++ Some h :: rest /\
    all_succeed (@Device_Close strictDevice) hs three_devices = Some w1 /\
    @Device_Close strictDevice (Some h) w1
    = (Ret (Some "not open"%string),
       @mkWorld strictDevice [false; false; true] [CallClose 0; CallClose 1]) /\
    [CallClose 0; CallClose 1] = [] ++ map CallClose hs ++ [CallClose h].
Proof.
  split; [reflexivity |].
  exact (proj2 (proj1 (proj2 (@Stop_closes_in_order strictDevice
                         (mkFunnelW three_devices (Some (make 1)))
                         (mkFunnelW (@mkWorld strictDevice [false; false; true]
                                       [CallClose 0; CallClose 1])
                            (Some (Chan 1 [true] false)))
                         (Some "not open"%string)))
           (mkRouter (Some 0%nat) [Some 1%nat; Some 2%nat] (Some (make 1))) eq_refl)).
Defined.

(** ** The loop of a pipe and the event it holds *)

(** A step leaves an event the loop holds with the loop, or appends it
    to what is at the destination, where it stays. *)
Lemma pipe_step_holding (e : Event) (D : list Event) (a : PipeAct) (s s' : PipeSt) :
  (p_pc s = PForward e /\ at_destination s = D) \/
  (exists more, at_destination s = D ++ e :: more) \/
  (p_pc s = PPanicked e /\ at_destination s = D /\ closed (p_output s) = true) ->
  pipe_step a s = Some s' ->
  (p_pc s' = PForward e /\ at_destination s' = D) \/
  (exists more, at_destination s' = D ++ e :: more) \/
  (p_pc s' = PPanicked e /\ at_destination s' = D /\ closed (p_output s') = true).
Proof.
  destruct s as [input output stop pc sent taken].
  unfold at_destination, pipe_step, pipe_alive;
    cbn [p_output p_pc p_sent p_taken p_input].
  intros [(Hpc & HD) | [(more & HD) | (Hpc & _)]] H.
  - subst pc.
    destruct a; cbn [negb] in H; try discriminate H; inv_step H; chan_inv;
      cbn [p_output p_pc p_sent p_taken p_input cap buf closed push] in *.
    + right. left. exists []. rewrite app_assoc. reflexivity.
    + right. right. auto.
    + left. auto.
    + left. split; [reflexivity |].
      match goal with E : buf _ = _ :: _ |- _ => rewrite E end.
      rewrite <- app_assoc. reflexivity.
    + left. auto.
    + left. auto.
    + left. auto.
  - right. left.
    destruct a, pc; cbn [negb] in H; try discriminate H; inv_step H; chan_inv;
      cbn [p_output p_pc p_sent p_taken p_input cap buf closed push] in *.
    all: repeat match goal with
                | E : buf _ = _ :: _ |- _ => rewrite E in *
                end.
    all: try (exists more; rewrite <- ?app_assoc; cbn [app]; exact HD).
    all: try (eexists (more ++ [_]); rewrite app_assoc, HD, <- app_assoc;
              reflexivity).
  - subst pc. discriminate H.
Qed.

(** Between its receive and its send the loop of [Pipe.Connect] looks
    at nothing else: a stop signal is not taken and no other event is
    received before the send is done, and while the destination is
    full the loop stands still.  So the event is not dropped: however
    the pipe, its neighbours and [Stop] go on from there, the event is
    still with the loop and the destination has got nothing more, or
    it is the next event that has reached the destination (in its
    channel, or taken by its reader), or the send has panicked on a
    closed destination.  And whenever the loop has returned, for either
    reason, every event sent into the source has been taken by the
    reader of the destination, waits in the destination channel or
    waits in the source channel, in that order. *)
Theorem Pipe_Connect_keeps_event (n : nat) (acts : list PipeAct) (s : PipeSt) :
  run pipe_step acts (pipe_init n) = Some s ->
  (forall e acts' s',
      p_pc s = PForward e -> run pipe_step acts' s = Some s' ->
      (p_pc s' = PForward e /\ at_destination s' = at_destination s) \/
      (exists more, at_destination s' = at_destination s ++ e :: more) \/
      (p_pc s' = PPanicked e /\ at_destination s' = at_destination s /\
       closed (p_output s') = true)) /\
  (forall e, p_pc s = PForward e ->
             pipe_step PStop s = None /\ pipe_step PRecv s = None /\
             (closed (p_output s) = false -> has_room (p_output s) = false ->
              pipe_step PSend s = None)) /\
  (forall why, p_pc s = PReturned why ->
               p_sent s = p_taken s ++ buf (p_output s) ++ buf (p_input s) /\
               pipe_step PRecv s = None /\ pipe_step PStop s = None /\
               pipe_step PSend s = None).
Proof.
  intros Hrun. destruct (pipe_reachable_inv n acts s Hrun) as (_ & Hfifo & _).
  split.
  { intros e acts' s' Hpc Hrun'.
    apply (run_invariant pipe_step _ (pipe_step_holding e (at_destination s))
             acts' s s'); auto. }
  destruct s as [input output stop pc sent taken]; cbn [p_pc p_output] in *.
  split.
  - intros e ->. cbn. repeat split.
    intros Hcl Hroom. unfold send. rewrite Hcl, Hroom. reflexivity.
  - intros why ->. cbn. repeat split. apply Hfifo.
Qed.

Lemma Pipe_Connect_keeps_event_witness :
  run pipe_step [PProduce (NoteOn 0 60 100); PRecv; PSignal] (pipe_init 2)
  = Some (mkPipeSt (make 2) (make 2) (Chan 1 [true] false)
            (PForward (NoteOn 0 60 100)) [NoteOn 0 60 100] []) /\
  run pipe_step [PSend; PProduce (NoteOff 0 60 0); PStop; PConsume]
    (mkPipeSt (make 2) (make 2) (Chan 1 [true] false)
       (PForward (NoteOn 0 60 100)) [NoteOn 0 60 100] [])
  = Some (mkPipeSt (Chan 2 [NoteOff 0 60 0] false) (make 2) (Chan 1 [] false)
            (PReturned Stopped) [NoteOn 0 60 100; NoteOff 0 60 0] [NoteOn 0 60 100]) /\
  ((PReturned Stopped = PForward (NoteOn 0 60 100) /\
    [NoteOn 0 60 100] ++ [] = [] ++ []) \/
   (exists more, [NoteOn 0 60 100] ++ [] = ([] ++ []) ++ NoteOn 0 60 100 :: more) \/
   (PReturned Stopped = PPanicked (NoteOn 0 60 100) /\
    [NoteOn 0 60 100] ++ [] = [] ++ [] /\ false = true)).
Proof.
  split; [reflexivity |]. split; [reflexivity |].
  apply (proj1 (Pipe_Connect_keeps_event 2
                  [PProduce (NoteOn 0 60 100); PRecv; PSignal]
                  (mkPipeSt (make 2) (make 2) (Chan 1 [true] false)
                     (PForward (NoteOn 0 60 100)) [NoteOn 0 60 100] [])
                  eq_refl)
           (NoteOn 0 60 100)
           [PSend; PProduce (NoteOff 0 60 0); PStop; PConsume]
           (mkPipeSt (Chan 2 [NoteOff 0 60 0] false) (make 2) (Chan 1 [] false)
              (PReturned Stopped) [NoteOn 0 60 100; NoteOff 0 60 0] [NoteOn 0 60 100])
           eq_refl eq_refl).
Defined.

(** ** A funnel whose source is closed *)

(** A goroutine of [Funnel.Connect] receives from its source without
    looking at whether the channel is closed: once the source is closed
    and empty, every receive yields a nil event at once, and the
    goroutine sends one nil event after the other to the destination,
    as many as the destination has room for. *)
Theorem Funnel_closed_source_floods (k : nat) :
  forall (s : FunnelSt) (i : nat) (src : chan Event),
    f_crashed s = false ->
    f_tasks s !! i = Some FSelect -> f_sources s !! i = Some src ->
    buf src = [] -> closed src = true ->
    closed (f_dest s) = false ->
    (length (buf (f_dest s)) + k <= cap (f_dest s))%nat ->
    run funnel_step (concat (replicate k [FRecv i; FSend i])) s
    = Some (mkFunnelSt (f_sources s)
              (Chan (cap (f_dest s)) (buf (f_dest s) ++ replicate k None) false)
              (f_stop s) (f_tasks s) (f_signalled s) (f_taken s) (f_resent s) false).
Proof.
  induction k as [| k IH]; intros s i src Hc Ht Hs Hbuf Hcl Hd Hroom.
  - cbn. rewrite app_nil_r.
    destruct s as [sources [cd bd cld] stop tasks signalled taken resent crashed];
      cbn in *. subst. reflexivity.
  - cbn [replicate concat app run].
    destruct s as [sources [cd bd cld] stop tasks signalled taken resent crashed];
      cbn [f_crashed f_tasks f_sources f_dest f_stop f_signalled f_taken f_resent
           cap buf closed] in *.
    subst crashed cld.
    assert (Hlt : (i < length tasks)%nat) by (eapply lookup_lt_Some; eauto).
    unfold funnel_step at 1. rewrite Ht, Hs. unfold recv. rewrite Hbuf, Hcl.
    rewrite (list_insert_id sources i src Hs).
    unfold funnel_step at 1. rewrite list_lookup_insert_eq by assumption.
    unfold send, has_room; cbn [closed buf cap].
    rewrite (proj2 (Nat.ltb_lt (length bd) cd)) by lia.
    rewrite list_insert_insert_eq, (list_insert_id tasks i FSelect Ht).
    rewrite (IH _ i src); cbn [f_crashed f_tasks f_sources f_dest f_stop f_signalled
                               f_taken f_resent cap buf closed push]; auto.
    + rewrite <- app_assoc. reflexivity.
    + rewrite length_app. cbn [length]. lia.
Qed.

Lemma Funnel_closed_source_floods_witness :
  run funnel_step [FRecv 0; FSend 0; FRecv 0; FSend 0]
    (mkFunnelSt [Chan 2 [] true] (make 2) (make 1) [FSelect] 0 0 0 false)
  = Some (mkFunnelSt [Chan 2 [] true] (Chan 2 [None; None] false) (make 1)
            [FSelect] 0 0 0 false).
Proof.
  apply (Funnel_closed_source_floods 2
           (mkFunnelSt [Chan 2 [] true] (make 2) (make 1) [FSelect] 0 0 0 false)
           0%nat (Chan 2 [] true)); reflexivity.
Defined.
